(** * Disunday: session / worktree / scheduler store and credential vault

    A shallow embedding of the persistent store (database.ts), the
    credential helpers (security.ts), the scheduler tick (scheduler.ts),
    the schedule command (commands/schedule.ts) and the fork and resume
    handlers, together with the properties the specification states
    about them.

    Conventions.
    - A SQLite table with a PRIMARY KEY is a finite map from the key to
      the remaining columns ([gmap]).  [INSERT OR REPLACE] is map
      insertion, [UPDATE ... WHERE key = ?] is [alter], [DELETE] is
      [delete], [SELECT ... WHERE key = ?] is lookup.  The [created_at]
      and [updated_at] columns are filled by the database and read by no
      code of the repository; they are left out.
    - A row of a table that is read without [ORDER BY] carries its
      rowid: SQLite returns such rows by increasing rowid, and a row
      written by [INSERT OR REPLACE] gets a rowid above those in the
      table.
    - A JavaScript string is represented by its UTF-8 encoding, a Rocq
      [string] (a sequence of bytes); a Node [Buffer] is a [list ascii].
      [Buffer.from(s, 'utf8')] and [buf.toString('utf8')] are then the
      two conversions between [string] and [list ascii].  Lengths and
      positions of a JavaScript string count UTF-16 code units, and are
      computed as such from the bytes.
    - What is thrown is an [Error] object, with its name and message.
    - Calls that leave the process (Discord, the agent server) are
      oracles over an abstract world; what they do is recorded in a
      trace of events. *)

From Stdlib Require Import ZArith Ascii String Bool.
From stdpp Require Import gmap strings list fin_maps pretty.

Local Open Scope string_scope.

(** ** The store (database.ts) *)

Module Store.

(** [WorktreeStatus], database.ts line 276. *)
Inductive WorktreeStatus := WtPending | WtReady | WtError.

#[global] Instance WorktreeStatus_eq_dec : EqDecision WorktreeStatus.
Proof. solve_decision. Defined.

(** [ThreadWorktree], database.ts lines 278-285; [thread_id] is the key. *)
Record ThreadWorktree := mkThreadWorktree {
  worktree_name : string;
  worktree_directory : option string;
  project_directory : string;
  status : WorktreeStatus;
  error_message : option string;
}.

(** A row of [part_messages]; [part_id] is the key.  [pm_rowid] is the
    rowid of the row: the table is read by [message_id] without an
    index and without [ORDER BY], in the order of the rowids. *)
Record PartMessage := mkPartMessage {
  message_id : string;
  pm_thread_id : string;
  pm_rowid : Z;
}.

(** A row of [bot_api_keys]; [app_id] is the key, both columns nullable. *)
Record BotApiKeysRow := mkBotApiKeysRow {
  gemini_api_key : option string;
  xai_api_key : option string;
}.

(** A row of [channel_directories]; [channel_id] is the key. *)
Record ChannelDirectoryRow := mkChannelDirectoryRow {
  directory : string;
  app_id : option string;
}.

Inductive ScheduleStatus := SchPending | SchCompleted | SchFailed | SchCancelled.

#[global] Instance ScheduleStatus_eq_dec : EqDecision ScheduleStatus.
Proof. solve_decision. Defined.

(** Modelled from the spec: the [scheduled_messages] table, whose schema
    ([runScheduleMigrations]) is not part of the sources at hand.  The
    columns are those of the ScheduledMessage entity of the data model,
    with the names scheduler.ts and commands/schedule.ts read
    ([id], [channel_id], [thread_id], [prompt], [scheduled_at],
    [status], [created_by]) and the error message the scheduler
    records; [id] is the key, and a schedule handed to the code is the
    pair of its id and its row. *)
Record ScheduledMessage := mkScheduledMessage {
  sm_channel_id : string;
  sm_thread_id : option string;
  sm_prompt : string;
  sm_scheduled_at : Z;
  sm_status : ScheduleStatus;
  sm_created_by : string;
  sm_error_message : option string;
}.

(** Modelled from the spec: the per-application settings row read by
    [getBotSettings]; only [hub_channel_id] is used by the code at hand. *)
Record BotSettings := mkBotSettings {
  hub_channel_id : option string;
}.

Record Database := mkDatabase {
  thread_sessions : gmap string string;
  part_messages : gmap string PartMessage;
  bot_tokens : gmap string string;
  bot_api_keys : gmap string BotApiKeysRow;
  thread_worktrees : gmap string ThreadWorktree;
  channel_directories : gmap string ChannelDirectoryRow;
  scheduled_messages : gmap Z ScheduledMessage;
  bot_settings : gmap string BotSettings;
}.

Definition empty_database : Database :=
  mkDatabase ∅ ∅ ∅ ∅ ∅ ∅ ∅ ∅.

Definition with_thread_sessions (f : gmap string string → gmap string string)
    (db : Database) : Database :=
  mkDatabase (f (thread_sessions db)) (part_messages db) (bot_tokens db)
    (bot_api_keys db) (thread_worktrees db) (channel_directories db)
    (scheduled_messages db) (bot_settings db).

Definition with_part_messages (f : gmap string PartMessage → gmap string PartMessage)
    (db : Database) : Database :=
  mkDatabase (thread_sessions db) (f (part_messages db)) (bot_tokens db)
    (bot_api_keys db) (thread_worktrees db) (channel_directories db)
    (scheduled_messages db) (bot_settings db).

Definition with_bot_tokens (f : gmap string string → gmap string string)
    (db : Database) : Database :=
  mkDatabase (thread_sessions db) (part_messages db) (f (bot_tokens db))
    (bot_api_keys db) (thread_worktrees db) (channel_directories db)
    (scheduled_messages db) (bot_settings db).

Definition with_bot_api_keys (f : gmap string BotApiKeysRow → gmap string BotApiKeysRow)
    (db : Database) : Database :=
  mkDatabase (thread_sessions db) (part_messages db) (bot_tokens db)
    (f (bot_api_keys db)) (thread_worktrees db) (channel_directories db)
    (scheduled_messages db) (bot_settings db).

Definition with_thread_worktrees
    (f : gmap string ThreadWorktree → gmap string ThreadWorktree)
    (db : Database) : Database :=
  mkDatabase (thread_sessions db) (part_messages db) (bot_tokens db)
    (bot_api_keys db) (f (thread_worktrees db)) (channel_directories db)
    (scheduled_messages db) (bot_settings db).

Definition with_scheduled_messages
    (f : gmap Z ScheduledMessage → gmap Z ScheduledMessage)
    (db : Database) : Database :=
  mkDatabase (thread_sessions db) (part_messages db) (bot_tokens db)
    (bot_api_keys db) (thread_worktrees db) (channel_directories db)
    (f (scheduled_messages db)) (bot_settings db).

(** [getChannelDirectory], database.ts lines 512-533. *)
Definition getChannelDirectory (channelId : string) (db : Database)
    : option ChannelDirectoryRow :=
  channel_directories db !! channelId.

(** *** Schedules *)

(** [schedule.id] *)
Definition schedule_id (schedule : Z * ScheduledMessage) : Z := schedule.1.

(** Modelled from the spec: the condition of [getPendingSchedules],
    [status = pending AND scheduledAt <= now]. *)
Definition is_due (now : Z) (schedule : Z * ScheduledMessage) : Prop :=
  sm_status schedule.2 = SchPending ∧ (sm_scheduled_at schedule.2 ≤ now)%Z.

#[global] Instance is_due_dec now schedule : Decision (is_due now schedule).
Proof. unfold is_due. apply _. Defined.

(** Modelled from the spec: [getPendingSchedules], imported by
    scheduler.ts from database.ts but not part of the sources at hand.
    It returns the rows with [status = pending AND scheduledAt <= now],
    [now] being the clock at the call. *)
Definition getPendingSchedules (now : Z) (db : Database)
    : list (Z * ScheduledMessage) :=
  filter (is_due now) (map_to_list (scheduled_messages db)).

(** Modelled from the spec: what [updateScheduleStatus] writes into a
    row, the status and the error message; the other columns stay. *)
Definition set_status (status : ScheduleStatus) (errorMessage : option string)
    (r : ScheduledMessage) : ScheduledMessage :=
  mkScheduledMessage (sm_channel_id r) (sm_thread_id r) (sm_prompt r)
    (sm_scheduled_at r) status (sm_created_by r) errorMessage.

(** Modelled from the spec: [updateScheduleStatus(id, status,
    errorMessage?)], imported by scheduler.ts from database.ts but not
    part of the sources at hand.  It sets the status of the row of that
    id and records the message given with it. *)
Definition updateScheduleStatus (id : Z) (status : ScheduleStatus)
    (errorMessage : option string) (db : Database) : Database :=
  with_scheduled_messages (alter (set_status status errorMessage) id) db.

(** Modelled from the spec: [getScheduleById], imported by
    commands/schedule.ts from database.ts but not part of the sources at
    hand: the row of that id, if there is one. *)
Definition getScheduleById (id : Z) (db : Database) : option ScheduledMessage :=
  scheduled_messages db !! id.

(** Modelled from the spec: [getBotSettings], imported by scheduler.ts
    from database.ts but not part of the sources at hand: the settings
    of the application, with no hub channel when none was stored. *)
Definition getBotSettings (appId : string) (db : Database) : BotSettings :=
  default (mkBotSettings None) (bot_settings db !! appId).

(** *** Worktrees, database.ts lines 287-355 *)

(** [SELECT * FROM thread_worktrees WHERE thread_id = ?] *)
Definition getThreadWorktree (threadId : string) (db : Database)
    : option ThreadWorktree :=
  thread_worktrees db !! threadId.

(** [INSERT OR REPLACE INTO thread_worktrees (thread_id, worktree_name,
    project_directory, status) VALUES (?, ?, ?, 'pending')]: a row that
    exists is replaced, the columns not listed take their defaults. *)
Definition createPendingWorktree (threadId worktreeName projectDirectory : string)
    (db : Database) : Database :=
  with_thread_worktrees
    (insert threadId (mkThreadWorktree worktreeName None projectDirectory WtPending None))
    db.

Definition mark_ready (worktreeDirectory : string) (r : ThreadWorktree) : ThreadWorktree :=
  mkThreadWorktree (worktree_name r) (Some worktreeDirectory) (project_directory r)
    WtReady (error_message r).

Definition mark_error (errorMessage : string) (r : ThreadWorktree) : ThreadWorktree :=
  mkThreadWorktree (worktree_name r) (worktree_directory r) (project_directory r)
    WtError (Some errorMessage).

(** [UPDATE thread_worktrees SET worktree_directory = ?, status = 'ready'
    WHERE thread_id = ?] *)
Definition setWorktreeReady (threadId worktreeDirectory : string)
    (db : Database) : Database :=
  with_thread_worktrees (alter (mark_ready worktreeDirectory) threadId) db.

(** [UPDATE thread_worktrees SET status = 'error', error_message = ?
    WHERE thread_id = ?] *)
Definition setWorktreeError (threadId errorMessage : string)
    (db : Database) : Database :=
  with_thread_worktrees (alter (mark_error errorMessage) threadId) db.

(** [DELETE FROM thread_worktrees WHERE thread_id = ?] *)
Definition deleteThreadWorktree (threadId : string) (db : Database) : Database :=
  with_thread_worktrees (delete threadId) db.

(** The four writers as a datatype, to speak about sequences of calls. *)
Inductive WorktreeOp :=
  | OpCreatePending (threadId worktreeName projectDirectory : string)
  | OpSetReady (threadId worktreeDirectory : string)
  | OpSetError (threadId errorMessage : string)
  | OpDelete (threadId : string).

Definition op_thread (op : WorktreeOp) : string :=
  match op with
  | OpCreatePending t _ _ | OpSetReady t _ | OpSetError t _ | OpDelete t => t
  end.

Definition apply_op (db : Database) (op : WorktreeOp) : Database :=
  match op with
  | OpCreatePending t n p => createPendingWorktree t n p db
  | OpSetReady t d => setWorktreeReady t d db
  | OpSetError t m => setWorktreeError t m db
  | OpDelete t => deleteThreadWorktree t db
  end.

Definition run_ops (ops : list WorktreeOp) (db : Database) : Database :=
  foldl apply_op db ops.

Definition worktree_status (threadId : string) (db : Database)
    : option WorktreeStatus :=
  status <$> getThreadWorktree threadId db.

Definition is_create_for (t : string) (op : WorktreeOp) : bool :=
  match op with
  | OpCreatePending t' _ _ => bool_decide (t' = t)
  | _ => false
  end.

(** *** Thread sessions and part messages *)

(** [INSERT OR REPLACE INTO thread_sessions (thread_id, session_id)
    VALUES (?, ?)], as run by the resume and fork handlers. *)
Definition bindSession (threadId sessionId : string) (db : Database) : Database :=
  with_thread_sessions (insert threadId sessionId) db.

(** [SELECT session_id FROM thread_sessions WHERE thread_id = ?] *)
Definition resolveSession (threadId : string) (db : Database) : option string :=
  thread_sessions db !! threadId.

(** [SELECT COUNT( * ) FROM thread_sessions WHERE thread_id = ?]: the
    number of rows of a thread. *)
Definition session_rows (threadId : string) (db : Database) : nat :=
  size (filter (λ kv, kv.1 = threadId) (thread_sessions db)).

(** The rowid SQLite gives a new row: one more than the largest rowid
    of the table, 1 in an empty table. *)
Definition next_rowid (pm : gmap string PartMessage) : Z :=
  (1 + map_fold (λ _ row largest, Z.max (pm_rowid row) largest) 0 pm)%Z.

(** One [stmt.run(partId, messageId, threadId)] of
    [INSERT OR REPLACE INTO part_messages (part_id, message_id, thread_id)
    VALUES (?, ?, ?)]: the row of the part, if there is one, is deleted
    and the new row is inserted with a new rowid. *)
Definition insert_part_message (messageId threadId : string)
    (pm : gmap string PartMessage) (partId : string) : gmap string PartMessage :=
  <[partId := mkPartMessage messageId threadId (next_rowid pm)]> pm.

(** The transaction of the resume handler: the statement is run for
    every part id of the batch, in order, with one message id. *)
Definition recordFragments (partIds : list string) (messageId threadId : string)
    (db : Database) : Database :=
  with_part_messages
    (λ pm, foldl (insert_part_message messageId threadId) pm partIds) db.

Definition recordFragment (partId messageId threadId : string)
    (db : Database) : Database :=
  recordFragments [partId] messageId threadId db.

(** Of two rows, the one SQLite reads first. *)
Definition earlier (a b : string * PartMessage) : string * PartMessage :=
  if (pm_rowid b.2 <? pm_rowid a.2)%Z then b else a.

(** The row of least rowid. *)
Definition first_row (rows : list (string * PartMessage))
    : option (string * PartMessage) :=
  match rows with
  | [] => None
  | row :: rest => Some (foldl earlier row rest)
  end.

(** [SELECT part_id FROM part_messages WHERE message_id = ?] with
    [.get]: the first matching row in the order of the rowids, if
    any. *)
Definition resolveFragment (messageId : string) (db : Database) : option string :=
  fst <$> first_row (filter (λ kv, message_id kv.2 = messageId)
                            (map_to_list (part_messages db))).

End Store.

(** ** Errors and results *)

(** A JavaScript [Error]: its name and its message. *)
Record JsError := mkError {
  err_name : string;
  err_message : string;
}.

(** The outcome of a call that may throw (or of a promise that may
    reject). *)
Inductive Result (A : Type) :=
  | Ok (a : A)
  | Throw (e : JsError).
Arguments Ok {A} a.
Arguments Throw {A} e.

(** [new Error(message)] *)
Definition Error (message : string) : JsError := mkError "Error" message.

(** *** errore

    [errore] is a dependency of the repository (a git submodule) and not
    part of its sources.  Modelled on the library's behaviour: the
    function given to [errore.tryAsync] is run, and a rejection with an
    [Error] is not thrown but returned, wrapped in an [UnhandledError]
    whose message is [Unhandled exception: ] followed by the message of
    the cause. *)
Definition UnhandledError (cause : JsError) : JsError :=
  mkError "UnhandledError" ("Unhandled exception: " +:+ err_message cause).

(** What [errore.tryAsync] returns for a function that gave [r]. *)
Definition errore_result {A} (r : Result A) : Result A :=
  match r with
  | Ok a => Ok a
  | Throw cause => Throw (UnhandledError cause)
  end.

(** ** The credential vault (security.ts) *)

Module Security.

(** *** Base64, as [Buffer] reads and writes it *)

Definition base64_alphabet : list ascii :=
  list_ascii_of_string
    "ABCDEFGHIJKLMNOPQRSTUVWXYZabcdefghijklmnopqrstuvwxyz0123456789+/".

(** Six bits, the most significant first. *)
Definition sextet : Type := bool * bool * bool * bool * bool * bool.

Definition sextet_index (s : sextet) : nat :=
  let '(a, b, c, d, e, f) := s in
  32 * Nat.b2n a + 16 * Nat.b2n b + 8 * Nat.b2n c
  + 4 * Nat.b2n d + 2 * Nat.b2n e + Nat.b2n f.

Definition sextet_of_index (n : nat) : sextet :=
  (Nat.testbit n 5, Nat.testbit n 4, Nat.testbit n 3,
   Nat.testbit n 2, Nat.testbit n 1, Nat.testbit n 0).

Definition base64_char (s : sextet) : ascii :=
  nth (sextet_index s) base64_alphabet "A"%char.

Fixpoint index_of (c : ascii) (l : list ascii) : option nat :=
  match l with
  | [] => None
  | x :: r => if Ascii.eqb x c then Some 0 else S <$> index_of c r
  end.

(** The value of a character for the decoder; the URL-safe [-] and [_]
    are read as [+] and [/]. *)
Definition unbase64 (c : ascii) : option sextet :=
  if Ascii.eqb c "-" then Some (sextet_of_index 62)
  else if Ascii.eqb c "_" then Some (sextet_of_index 63)
  else sextet_of_index <$> index_of c base64_alphabet.

(** Three bytes are four sextets ([Ascii] lists the least significant
    bit first). *)
Definition encode3 (x y z : ascii) : sextet * sextet * sextet * sextet :=
  let '(Ascii x0 x1 x2 x3 x4 x5 x6 x7) := x in
  let '(Ascii y0 y1 y2 y3 y4 y5 y6 y7) := y in
  let '(Ascii z0 z1 z2 z3 z4 z5 z6 z7) := z in
  ((x7, x6, x5, x4, x3, x2), (x1, x0, y7, y6, y5, y4),
   (y3, y2, y1, y0, z7, z6), (z5, z4, z3, z2, z1, z0)).

Definition decode_first (a b : sextet) : ascii :=
  let '(a5, a4, a3, a2, a1, a0) := a in
  let '(b5, b4, _, _, _, _) := b in
  Ascii b4 b5 a0 a1 a2 a3 a4 a5.

Definition decode_second (b c : sextet) : ascii :=
  let '(_, _, b3, b2, b1, b0) := b in
  let '(c5, c4, c3, c2, _, _) := c in
  Ascii c2 c3 c4 c5 b0 b1 b2 b3.

Definition decode_third (c d : sextet) : ascii :=
  let '(_, _, _, _, c1, c0) := c in
  let '(d5, d4, d3, d2, d1, d0) := d in
  Ascii d0 d1 d2 d3 d4 d5 c0 c1.

(** [buf.toString('base64')]: the padded encoding of RFC 4648. *)
Fixpoint base64_encode (bs : list ascii) : string :=
  match bs with
  | [] => ""
  | [x] =>
      let '(s1, s2, _, _) := encode3 x zero zero in
      String (base64_char s1) (String (base64_char s2) "==")
  | [x; y] =>
      let '(s1, s2, s3, _) := encode3 x y zero in
      String (base64_char s1) (String (base64_char s2)
        (String (base64_char s3) "="))
  | x :: y :: z :: rest =>
      let '(s1, s2, s3, s4) := encode3 x y z in
      String (base64_char s1) (String (base64_char s2)
        (String (base64_char s3) (String (base64_char s4)
          (base64_encode rest))))
  end.

(** [Buffer.from(s, 'base64')] reads of every UTF-16 code unit of [s]
    its low byte.  A character of one byte is its own unit.  The unit
    of a character of two or three bytes has for low byte the last two
    bits of the byte before the last and the six bits of the last.  A
    character of four bytes [11110aaa 10bbbbbb 10cccccc 10dddddd] is a
    surrogate pair: the first unit is [0xD800 + (aaabbbbbbcc - 0x40)],
    the second has the low byte of the code point. *)
Definition low_byte (before last : ascii) : ascii :=
  ascii_of_nat ((nat_of_ascii before `mod` 4) * 64 + nat_of_ascii last `mod` 64).

Definition high_unit (lead second third : ascii) : nat :=
  216 * 256 + ((nat_of_ascii lead `mod` 8) * 256 + (nat_of_ascii second `mod` 64) * 4
           + (nat_of_ascii third `mod` 64) `div` 16 - 64).

(** Where the reader is inside a character. *)
Inductive Pending :=
  | NoPending
  | LastByte (before : ascii)
  | SecondOfThree
  | SecondOfFour (lead : ascii)
  | ThirdOfFour (lead second : ascii).

Fixpoint unit_bytes_from (p : Pending) (s : string) : string :=
  match s with
  | "" => ""
  | String c r =>
      let n := nat_of_ascii c in
      if (n <? 128)%nat then String c (unit_bytes_from NoPending r)
      else if (n <? 192)%nat then
        match p with
        | NoPending => unit_bytes_from NoPending r
        | LastByte before => String (low_byte before c) (unit_bytes_from NoPending r)
        | SecondOfThree => unit_bytes_from (LastByte c) r
        | SecondOfFour lead => unit_bytes_from (ThirdOfFour lead c) r
        | ThirdOfFour lead second =>
            String (ascii_of_nat (high_unit lead second c `mod` 256))
                   (unit_bytes_from (LastByte c) r)
        end
      else if (n <? 224)%nat then unit_bytes_from (LastByte c) r
      else if (n <? 240)%nat then unit_bytes_from SecondOfThree r
      else unit_bytes_from (SecondOfFour c) r
  end.

(** The low bytes of the code units of a string. *)
Definition unit_bytes (s : string) : string := unit_bytes_from NoPending s.

(** The decoder is lenient: a unit whose low byte is outside the
    alphabet is skipped and decoding stops at the first [=]. *)
Fixpoint base64_sextets (s : string) : list sextet :=
  match s with
  | "" => []
  | String c r =>
      if Ascii.eqb c "=" then []
      else match unbase64 c with
           | Some x => x :: base64_sextets r
           | None => base64_sextets r
           end
  end.

Fixpoint base64_bytes (l : list sextet) : list ascii :=
  match l with
  | a :: b :: c :: d :: rest =>
      decode_first a b :: decode_second b c :: decode_third c d
        :: base64_bytes rest
  | [a; b; c] => [decode_first a b; decode_second b c]
  | [a; b] => [decode_first a b]
  | _ => []
  end.

Definition base64_decode (s : string) : list ascii :=
  base64_bytes (base64_sextets (unit_bytes s)).

(** *** Strings *)

(** [s.includes(c)] for a one-character [c]. *)
Fixpoint includes (c : ascii) (s : string) : bool :=
  match s with
  | "" => false
  | String x r => Ascii.eqb x c || includes c r
  end.

(** [s.split(c)] for a one-character separator: never empty, one more
    part than there are separators. *)
Fixpoint split (c : ascii) (s : string) : list string :=
  match s with
  | "" => [""]
  | String x r =>
      if Ascii.eqb x c then "" :: split c r
      else match split c r with
           | h :: t => String x h :: t
           | [] => [String x ""]
           end
  end.

(** [!s] on a string: the empty string is falsy. *)
Definition falsy (s : string) : bool :=
  match s with "" => true | _ => false end.

(** The character class [[A-Za-z0-9+/]]. *)
Definition base64_class (c : ascii) : bool :=
  let n := nat_of_ascii c in
  ((65 <=? n)%nat && (n <=? 90)%nat) || ((97 <=? n)%nat && (n <=? 122)%nat)
  || ((48 <=? n)%nat && (n <=? 57)%nat) || (n =? 43)%nat || (n =? 47)%nat.

Fixpoint all_padding (s : string) : bool :=
  match s with
  | "" => true
  | String c r => Ascii.eqb c "=" && all_padding r
  end.

Fixpoint class_then_padding (s : string) : bool :=
  match s with
  | "" => true
  | String c r => if base64_class c then class_then_padding r else all_padding s
  end.

(** [/^[A-Za-z0-9+/]+=*$/.test(s)]: at least one character of the
    class, then only [=] up to the end. *)
Definition base64Regex_test (s : string) : bool :=
  match s with
  | "" => false
  | String c r => base64_class c && class_then_padding r
  end.

(** *** Encrypted data, security.ts lines 30-34 and 187-232 *)

Record EncryptedData := mkEncryptedData {
  iv : string;
  authTag : string;
  encrypted : string;
}.

(** [`${data.iv}:${data.authTag}:${data.encrypted}`] *)
Definition serializeEncrypted (data : EncryptedData) : string :=
  iv data +:+ ":" +:+ authTag data +:+ ":" +:+ encrypted data.

Definition deserializeEncrypted (serialized : string) : option EncryptedData :=
  match split ":" serialized with
  | [iv; authTag; encrypted] =>
      if falsy iv || falsy authTag || falsy encrypted then None
      else Some (mkEncryptedData iv authTag encrypted)
  | _ => None
  end.

Definition isEncrypted (value : string) : bool :=
  if falsy value || negb (includes ":" value) then false
  else
    let parts := split ":" value in
    if negb (length parts =? 3)%nat then false
    else forallb (λ part, (0 <? String.length part)%nat && base64Regex_test part) parts.

(** *** AES-256-GCM *)

Definition IV_LENGTH : nat := 12.

(** What the code takes from [node:crypto].  [Key] is a key
    [createCipheriv('aes-256-gcm', key, iv)] accepts (32 bytes, as
    [getEncryptionKey] derives it); [Entropy] is the state of the random
    generator a call draws from.  [gcm_seal key iv plaintext] is the
    ciphertext ([cipher.update] followed by [cipher.final]) and the
    authentication tag ([cipher.getAuthTag]); [gcm_open key iv authTag
    ciphertext] is [createDecipheriv], [setAuthTag], [update] and
    [final], which throw when a field is unusable or the tag does not
    authenticate the data. *)
Class NodeCrypto := {
  Key : Type;
  Entropy : Type;
  randomBytes : nat → Entropy → list ascii;
  gcm_seal : Key → list ascii → list ascii → list ascii * list ascii;
  gcm_open : Key → list ascii → list ascii → list ascii → Result (list ascii);
}.

(** The contract of the library: [randomBytes n] has [n] bytes; GCM is
    a stream mode, the ciphertext is as long as the plaintext; the tag
    has 16 bytes; what was sealed under a key and a 12-byte IV opens
    under them. *)
Class NodeCryptoSpec (C : NodeCrypto) : Prop := {
  randomBytes_length : ∀ n e, length (randomBytes n e) = n;
  gcm_seal_length : ∀ k iv pt, length (gcm_seal k iv pt).1 = length pt;
  gcm_tag_length : ∀ k iv pt, length (gcm_seal k iv pt).2 = 16;
  gcm_open_seal : ∀ k iv pt,
    length iv = IV_LENGTH →
    gcm_open k iv (gcm_seal k iv pt).2 (gcm_seal k iv pt).1 = Ok pt;
}.

(** The authenticity of AES-256-GCM.  [gcm_open] computes the tag of
    the key, the IV and the ciphertext and compares it with the 16-byte
    tag it is given: what opens is what [gcm_seal] gives for the
    plaintext returned ([gcm_opens_sealed]); the ciphertext is the
    plaintext added to a key stream, so that a ciphertext is the
    ciphertext of one plaintext ([gcm_seal_injective]).  That no other
    key and no other IV give the same ciphertext and tag
    ([gcm_seal_binds]) holds of AES-GCM up to a collision of 128-bit
    tags; it is taken here without that exception, as in a symbolic
    model of the cipher. *)
Class GcmAuthentic (C : NodeCrypto) : Prop := {
  gcm_opens_sealed : ∀ k iv tag ct pt,
    length tag = 16 →
    gcm_open k iv tag ct = Ok pt → gcm_seal k iv pt = (ct, tag);
  gcm_seal_injective : ∀ k iv pt pt',
    (gcm_seal k iv pt).1 = (gcm_seal k iv pt').1 → pt = pt';
  gcm_seal_binds : ∀ k k' iv iv' pt pt',
    length iv = IV_LENGTH →
    gcm_seal k iv pt = gcm_seal k' iv' pt' → k = k' ∧ iv = iv';
}.

(** [DecryptionError], security.ts lines 21-24. *)
Definition DecryptionError (reason : string) : JsError :=
  mkError "DecryptionError" ("Decryption operation failed: " +:+ reason).

Section Vault.
Context `{C : NodeCrypto}.

(** [encrypt], security.ts lines 130-152; [rnd] is the generator the
    call draws its IV from. *)
Definition encrypt (rnd : Entropy) (plaintext : string) (key : Key) : EncryptedData :=
  let iv := randomBytes IV_LENGTH rnd in
  let sealed := gcm_seal key iv (list_ascii_of_string plaintext) in
  let encrypted := sealed.1 in
  let authTag := sealed.2 in
  mkEncryptedData (base64_encode iv) (base64_encode authTag) (base64_encode encrypted).

(** [decrypt], security.ts lines 158-185: whatever is thrown inside is
    rethrown as a [DecryptionError] carrying its message. *)
Definition decrypt (data : EncryptedData) (key : Key) : Result string :=
  let iv := base64_decode (iv data) in
  let authTag := base64_decode (authTag data) in
  let encrypted := base64_decode (encrypted data) in
  match gcm_open key iv authTag encrypted with
  | Ok decrypted => Ok (string_of_list_ascii decrypted)
  | Throw error => Throw (DecryptionError (err_message error))
  end.

End Vault.

(** *** A small instance of the interface

    A stream cipher that XORs the plaintext with the key and the IV
    repeated, and a 16-byte tag that folds key, IV and ciphertext.  It is
    not AES; it serves to run the vault on concrete values. *)

Definition xor_ascii (a b : ascii) : ascii :=
  let '(Ascii a0 a1 a2 a3 a4 a5 a6 a7) := a in
  let '(Ascii b0 b1 b2 b3 b4 b5 b6 b7) := b in
  Ascii (xorb a0 b0) (xorb a1 b1) (xorb a2 b2) (xorb a3 b3)
        (xorb a4 b4) (xorb a5 b5) (xorb a6 b6) (xorb a7 b7).

Fixpoint keystream (n : nat) (seed cur : list ascii) : list ascii :=
  match n with
  | 0 => []
  | S n' =>
      match cur with
      | [] => match seed with
              | [] => zero :: keystream n' seed []
              | x :: r => x :: keystream n' seed r
              end
      | x :: r => x :: keystream n' seed r
      end
  end.

Fixpoint xor_bytes (l ks : list ascii) : list ascii :=
  match l, ks with
  | x :: l', k :: ks' => xor_ascii x k :: xor_bytes l' ks'
  | _, _ => l
  end.

Definition toy_tag (key iv ct : list ascii) : list ascii :=
  replicate 16 (foldr xor_ascii zero (key ++ iv ++ ct)%list).

Definition toy_seal (key iv pt : list ascii) : list ascii * list ascii :=
  let ct := xor_bytes pt (keystream (length pt) (key ++ iv)%list []) in
  (ct, toy_tag key iv ct).

Definition toy_open (key iv tag ct : list ascii) : Result (list ascii) :=
  if bool_decide (tag = toy_tag key iv ct)
  then Ok (xor_bytes ct (keystream (length ct) (key ++ iv)%list []))
  else Throw (Error "Unsupported state or unable to authenticate data").

Definition toy_randomBytes (n : nat) (e : list ascii) : list ascii :=
  take n (e ++ replicate n zero)%list.

Definition toy_crypto : NodeCrypto :=
  {| Key := list ascii; Entropy := list ascii;
     randomBytes := toy_randomBytes;
     gcm_seal := toy_seal; gcm_open := toy_open |}.

(** *** An instance whose tag names the key and the IV

    Keys of two bytes; the tag of a 12-byte IV is the key, the IV, a
    fold of the ciphertext and a mark.  It serves to run the vault where
    the authenticity of the cipher is assumed. *)

Definition tagged_seed (key : ascii * ascii) (iv : list ascii) : list ascii :=
  (key.1 :: key.2 :: iv)%list.

Definition tagged_tag (key : ascii * ascii) (iv ct : list ascii) : list ascii :=
  if bool_decide (length iv = IV_LENGTH)
  then (key.1 :: key.2 :: iv ++ [foldr xor_ascii zero ct; one])%list
  else (key.1 :: key.2 :: replicate 13 zero ++ [zero])%list.

Definition tagged_seal (key : ascii * ascii) (iv pt : list ascii)
    : list ascii * list ascii :=
  let ct := xor_bytes pt (keystream (length pt) (tagged_seed key iv) []) in
  (ct, tagged_tag key iv ct).

Definition tagged_open (key : ascii * ascii) (iv tag ct : list ascii)
    : Result (list ascii) :=
  if bool_decide (tag = tagged_tag key iv ct)
  then Ok (xor_bytes ct (keystream (length ct) (tagged_seed key iv) []))
  else Throw (Error "Unsupported state or unable to authenticate data").

Definition tagged_crypto : NodeCrypto :=
  {| Key := ascii * ascii; Entropy := list ascii;
     randomBytes := toy_randomBytes;
     gcm_seal := tagged_seal; gcm_open := tagged_open |}.

(** The three fields are the encodings of non-empty buffers. *)
Definition well_encoded (d : EncryptedData) : Prop :=
  ∃ i t e, i ≠ [] ∧ t ≠ [] ∧ e ≠ []
    ∧ d = mkEncryptedData (base64_encode i) (base64_encode t) (base64_encode e).

End Security.

(** ** Stored credentials (database.ts lines 535-649) *)

Module Credentials.
Import Store Security.

Section Accessors.
Context `{C : NodeCrypto}.

(** [key] is what [getEncryptionKey()] returns: the key derived once
    from the machine fingerprint and the persisted salt, the same at
    every call.  [rnd] is the random generator [encrypt] draws from. *)
Variable key : Key.

(** [getBotToken], lines 539-573: the value returned and the store
    after the call. *)
Definition getBotToken (rnd : Entropy) (appId : string) (db : Database)
    : option string * Database :=
  match bot_tokens db !! appId with
  | None => (None, db)
  | Some token =>
      if falsy token then (None, db)
      else if negb (isEncrypted token) then
        let encrypted := encrypt rnd token key in
        let serialized := serializeEncrypted encrypted in
        (* UPDATE bot_tokens SET token = ? WHERE app_id = ? *)
        (Some token, with_bot_tokens (alter (λ _, serialized) appId) db)
      else
        match deserializeEncrypted token with
        | None => (None, db)
        | Some data =>
            match decrypt data key with
            | Ok plaintext => (Some plaintext, db)
            | Throw _ => (None, db)
            end
        end
  end.

(** [setBotToken], lines 575-584. *)
Definition setBotToken (rnd : Entropy) (appId token : string) (db : Database)
    : Database :=
  let encrypted := encrypt rnd token key in
  let serialized := serializeEncrypted encrypted in
  (* INSERT OR REPLACE INTO bot_tokens (app_id, token) VALUES (?, ?) *)
  with_bot_tokens (insert appId serialized) db.

(** The local [decryptValue] of [getBotApiKeys], lines 604-621. *)
Definition decryptValue (value : option string) : option string :=
  match value with
  | None => None
  | Some value =>
      if falsy value then None
      else if negb (isEncrypted value) then
        (* Auto-migrate on next setBotApiKeys call *)
        Some value
      else
        match deserializeEncrypted value with
        | None => None
        | Some data =>
            match decrypt data key with
            | Ok plaintext => Some plaintext
            | Throw _ => None
            end
        end
  end.

(** [getBotApiKeys], lines 586-627: the pair [(geminiApiKey,
    xaiApiKey)] when the row exists, and the store after the call; the
    function runs no statement but the [SELECT]. *)
Definition getBotApiKeys (appId : string) (db : Database)
    : option (option string * option string) * Database :=
  match bot_api_keys db !! appId with
  | None => (None, db)
  | Some row =>
      (Some (decryptValue (gemini_api_key row), decryptValue (xai_api_key row)), db)
  end.

(** The local [encryptValue] of [setBotApiKeys], lines 636-642. *)
Definition encryptValue (rnd : Entropy) (value : option string) : option string :=
  match value with
  | None => None
  | Some value =>
      if falsy value then None
      else Some (serializeEncrypted (encrypt rnd value key))
  end.

(** [setBotApiKeys], lines 629-649; each of the two values draws its
    own IV. *)
Definition setBotApiKeys (rnd1 rnd2 : Entropy) (appId : string)
    (geminiApiKey xaiApiKey : option string) (db : Database) : Database :=
  with_bot_api_keys
    (insert appId (mkBotApiKeysRow (encryptValue rnd1 geminiApiKey)
                                   (encryptValue rnd2 xaiApiKey)))
    db.

End Accessors.
End Credentials.

(** ** Effects

    A handler runs against the store and against the world outside the
    process.  A computation takes the state to a result (a value or a
    thrown error), the state after it, and the events it emitted. *)

Module Eff.
Import Store.

Record St (W : Type) := mkSt {
  world : W;
  database : Database;
}.
Arguments mkSt {W} world database.
Arguments world {W} s.
Arguments database {W} s.

Definition M (W E A : Type) : Type := St W → Result A * St W * list E.

Section Monad.
Context {W E : Type}.

Definition ret {A} (a : A) : M W E A := λ s, (Ok a, s, []).

Definition throw {A} (e : JsError) : M W E A := λ s, (Throw e, s, []).

Definition bind {A B} (m : M W E A) (k : A → M W E B) : M W E B :=
  λ s,
    match m s with
    | (Ok a, s1, t1) => let '(r, s2, t2) := k a s1 in (r, s2, (t1 ++ t2)%list)
    | (Throw e, s1, t1) => (Throw e, s1, t1)
    end.

(** An observable action of the handler. *)
Definition emit (e : E) : M W E unit := λ s, (Ok tt, s, [e]).

(** A call that leaves the process: it may throw, and it changes the
    world, not the store. *)
Definition call {A} (o : W → Result A * W) : M W E A :=
  λ s, let '(r, w) := o (world s) in (r, mkSt w (database s), []).

(** A [SELECT]. *)
Definition query {A} (q : Database → A) : M W E A :=
  λ s, (Ok (q (database s)), s, []).

(** An [INSERT], [UPDATE] or [DELETE]. *)
Definition exec (f : Database → Database) : M W E unit :=
  λ s, (Ok tt, mkSt (world s) (f (database s)), []).

(** [errore.tryAsync(() => m)]: the rejection becomes the value
    returned, as an [UnhandledError]; what was done before the throw
    stays done. *)
Definition tryAsync {A} (m : M W E A) : M W E (Result A) :=
  λ s, let '(r, s1, t1) := m s in (Ok (errore_result r), s1, t1).

(** [try { m } catch (error) { ... }] of the language: the handler is
    given what was thrown. *)
Definition try_catch {A} (m : M W E A) : M W E (Result A) :=
  λ s, let '(r, s1, t1) := m s in (Ok r, s1, t1).

(** [for (const x of l) { body }] *)
Fixpoint for_of {A} (l : list A) (body : A → M W E unit) : M W E unit :=
  match l with
  | [] => ret tt
  | x :: rest => bind (body x) (λ _, for_of rest body)
  end.

(** The three components of a run. *)
Definition result_of {A} (x : Result A * St W * list E) : Result A := x.1.1.
Definition state_of {A} (x : Result A * St W * list E) : St W := x.1.2.
Definition events_of {A} (x : Result A * St W * list E) : list E := x.2.

(** A computation that leaves the store alone and emits no event that
    [sel] selects. *)
Definition quiet {I} (sel : E → option I) {A} (m : M W E A) : Prop :=
  ∀ s, database (state_of (m s)) = database s
       ∧ omap sel (events_of (m s)) = [].

(** A computation that never throws. *)
Definition safe {A} (m : M W E A) : Prop :=
  ∀ s, ∃ a, result_of (m s) = Ok a.

End Monad.

#[global] Instance M_ret {W E} : MRet (M W E) := @ret W E.
#[global] Instance M_bind {W E} : MBind (M W E) := λ A B k m, bind m k.

End Eff.

(** ** Discord objects shared by the handlers *)

Module Discord.

(** [ChannelType] of discord.js, with its numbers. *)
Inductive ChannelType :=
  | GuildText
  | AnnouncementThread
  | PublicThread
  | PrivateThread
  | OtherChannelType (n : Z).

Definition channel_type_number (t : ChannelType) : Z :=
  match t with
  | GuildText => 0
  | AnnouncementThread => 10
  | PublicThread => 11
  | PrivateThread => 12
  | OtherChannelType n => n
  end.

Record Channel := mkChannel {
  ch_id : string;
  ch_type : ChannelType;
  ch_parentId : option string;
  ch_isTextBased : bool;
  ch_hasSend : bool;
}.

(** [[PublicThread, PrivateThread, AnnouncementThread].includes(channel.type)] *)
Definition isThread (channel : Channel) : bool :=
  match ch_type channel with
  | PublicThread | PrivateThread | AnnouncementThread => true
  | _ => false
  end.

Definition nl : string := String (ascii_of_nat 10) "".

(** *** Lengths and slices of JavaScript strings

    [s.length] and [s.slice(0, n)] count UTF-16 code units.  In the
    UTF-8 encoding a character of one, two or three bytes is one unit
    and a character of four bytes is two (a surrogate pair); a byte
    [10xxxxxx] continues the character begun before it. *)
Definition units_of (c : ascii) : nat :=
  let n := nat_of_ascii c in
  if (128 <=? n)%nat && (n <? 192)%nat then 0
  else if (n <? 240)%nat then 1 else 2.

(** [s.length] *)
Fixpoint utf16_length (s : string) : nat :=
  match s with
  | "" => 0
  | String c r => (units_of c + utf16_length r)%nat
  end.

(** A code unit of the range of the surrogates, written in three bytes
    like the characters of the units around that range. *)
Definition unit_string (u : nat) : string :=
  String (ascii_of_nat (224 + u `div` 4096))
    (String (ascii_of_nat (128 + (u `div` 64) `mod` 64))
       (String (ascii_of_nat (128 + u `mod` 64)) "")).

(** [s.slice(0, n)]: the first [n] code units.  When the cut falls
    inside a surrogate pair the first unit of the pair is kept. *)
Fixpoint utf16_slice (n : nat) (s : string) : string :=
  match s with
  | "" => ""
  | String c r =>
      match units_of c, n with
      | 0, _ => String c (utf16_slice n r)
      | 1, S n' => String c (utf16_slice n' r)
      | 2, S (S n') => String c (utf16_slice n' r)
      | 2, 1 =>
          match r with
          | String second (String third _) =>
              unit_string (Security.high_unit c second third)
          | _ => ""
          end
      | _, _ => ""
      end
  end.

(** [s.slice(0, n)] followed by [...] when [s] is longer than [n]. *)
Definition preview (n : nat) (s : string) : string :=
  utf16_slice n s +:+ (if (n <? utf16_length s)%nat then "..." else "").

(** [a || b] on strings that may be absent: the first that is neither
    absent nor empty. *)
Definition truthy (s : option string) : option string :=
  match s with
  | Some x => if Security.falsy x then None else Some x
  | None => None
  end.

End Discord.

(** ** The scheduler (scheduler.ts) *)

Module Scheduler.
Import Store Eff Discord.

(** What a tick does that can be seen from outside: its log lines and
    its calls to Discord and to the session handler. *)
Inductive Event :=
  | LogProcessing (id : Z)
  | LogFailed (id : Z) (error : JsError)
  | LogCompleted (id : Z)
  | SendThreadMessage (thread : Channel) (content : string)
  | HandleOpencodeSession (prompt : string) (thread : Channel)
      (projectDirectory channelId : string)
  | ChannelSend (channel : Channel) (content : string)
  | StartThread (message name : string).

(** The second argument of [sendScheduleNotification]. *)
Inductive Outcome := Completed | Failed.

Definition processing_id (e : Event) : option Z :=
  match e with LogProcessing id => Some id | _ => None end.

(** The ids of the schedules a run announced as being processed, in
    order. *)
Definition processing_ids (events : list Event) : list Z := omap processing_id events.

(** What the loop writes for a schedule whose execution, under
    [errore.tryAsync], gave [r], and what it notifies. *)
Definition recorded (r : Result unit) : ScheduleStatus * option string :=
  match r with
  | Throw error => (SchFailed, Some (err_message error))
  | Ok _ => (SchCompleted, None)
  end.

Definition notified (r : Result unit) : Outcome :=
  match r with Throw _ => Failed | Ok _ => Completed end.

Definition resolved (status : ScheduleStatus) : Prop :=
  status = SchCompleted ∨ status = SchFailed.

(** The texts sent to the channel of a given id. *)
Definition sent_to (channelId : string) (e : Event) : option string :=
  match e with
  | ChannelSend channel content =>
      if bool_decide (ch_id channel = channelId) then Some content else None
  | _ => None
  end.

Section Tick.
Context {W : Type}.

(** The Discord client and the session handler, as the tick uses
    them. *)
Record Client := mkClient {
  application_id : option string;
  channels_fetch : string → W → Result (option Channel) * W;
  sendThreadMessage : Channel → string → W → Result unit * W;
  handleOpencodeSession : string → Channel → string → string → W → Result unit * W;
  channel_send : Channel → string → W → Result string * W;
  message_startThread : string → string → W → Result Channel * W;
}.

Variable client : Client.

Definition perform {A} (e : Event) (o : W → Result A * W) : M W Event A :=
  emit e;; call o.

(** The body given to [errore.tryAsync], scheduler.ts lines 47-112. *)
Definition run_schedule (schedule : Z * ScheduledMessage) : M W Event unit :=
  let row := schedule.2 in
  let targetChannelId := default (sm_channel_id row) (truthy (sm_thread_id row)) in
  channel ← call (channels_fetch client targetChannelId);
  match channel with
  | None => throw (Error ("Channel " +:+ targetChannelId +:+ " not found"))
  | Some channel =>
      if isThread channel then
        let thread := channel in
        match truthy (ch_parentId thread) with
        | None => throw (Error "Thread has no parent channel")
        | Some parentId =>
            channelConfig ← query (getChannelDirectory parentId);
            match truthy (directory <$> channelConfig) with
            | None =>
                throw (Error ("No project directory configured for channel "
                              +:+ parentId))
            | Some projectDirectory =>
                let content :=
                  "⏰ **Scheduled message** (from <@" +:+ sm_created_by row
                  +:+ ">):" +:+ nl +:+ sm_prompt row in
                perform (SendThreadMessage thread content)
                        (sendThreadMessage client thread content);;
                perform (HandleOpencodeSession (sm_prompt row) thread
                                               projectDirectory parentId)
                        (handleOpencodeSession client (sm_prompt row) thread
                                               projectDirectory parentId)
            end
        end
      else
        match ch_type channel with
        | GuildText =>
            let textChannel := channel in
            channelConfig ← query (getChannelDirectory (ch_id textChannel));
            match truthy (directory <$> channelConfig) with
            | None =>
                throw (Error ("No project directory configured for channel "
                              +:+ ch_id textChannel))
            | Some projectDirectory =>
                let content :=
                  "⏰ **Scheduled** (from <@" +:+ sm_created_by row +:+ ">): "
                  +:+ preview 100 (sm_prompt row) in
                starterMessage ← perform (ChannelSend textChannel content)
                                         (channel_send client textChannel content);
                let name := "Scheduled: " +:+ preview 50 (sm_prompt row) in
                thread ← perform (StartThread starterMessage name)
                                 (message_startThread client starterMessage name);
                perform (HandleOpencodeSession (sm_prompt row) thread
                                               projectDirectory (ch_id textChannel))
                        (handleOpencodeSession client (sm_prompt row) thread
                                               projectDirectory (ch_id textChannel))
            end
        | _ =>
            throw (Error ("Unsupported channel type: "
                          +:+ pretty (channel_type_number (ch_type channel))))
        end
  end.

(** The text of a hub notification, scheduler.ts lines 150-159. *)
Definition notification_content (schedule : Z * ScheduledMessage)
    (status : Outcome) (errorMessage : option string) : string :=
  let promptPreview := preview 50 (sm_prompt schedule.2) in
  let emoji := match status with Completed => "✅" | Failed => "❌" end in
  let statusText := match status with Completed => "completed" | Failed => "failed" end in
  let head :=
    emoji +:+ " Schedule **#" +:+ pretty (schedule_id schedule) +:+ "** "
    +:+ statusText +:+ nl +:+ "📍 <#" +:+ sm_channel_id schedule.2 +:+ ">" +:+ nl
    +:+ "💬 " +:+ promptPreview in
  match status with
  | Failed => head +:+ nl +:+ "⚠️ " +:+ default "undefined" errorMessage
  | Completed => head
  end.

(** [sendScheduleNotification], scheduler.ts lines 126-164. *)
Definition sendScheduleNotification (schedule : Z * ScheduledMessage)
    (status : Outcome) (errorMessage : option string) : M W Event unit :=
  match truthy (application_id client) with
  | None => mret tt
  | Some appId =>
      settings ← query (getBotSettings appId);
      match truthy (hub_channel_id settings) with
      | None => mret tt
      | Some hubId =>
          hubChannel ← tryAsync (call (channels_fetch client hubId));
          match hubChannel with
          | Throw _ | Ok None => mret tt
          | Ok (Some hubChannel) =>
              if negb (ch_isTextBased hubChannel) || negb (ch_hasSend hubChannel)
              then mret tt
              else
                let content := notification_content schedule status errorMessage in
                (* try { await hubChannel.send(...) } catch {} *)
                try_catch (perform (ChannelSend hubChannel content)
                                   (channel_send client hubChannel content));;
                mret tt
          end
      end
  end.

(** A turn of the loop up to the [await] of line 47: the log line and
    the execution of the schedule under [errore.tryAsync]. *)
Definition execute (schedule : Z * ScheduledMessage) : M W Event (Result unit) :=
  emit (LogProcessing (schedule_id schedule));;
  tryAsync (run_schedule schedule).

(** The turn from there, lines 114-122: the status is written and the
    notification is sent. *)
Definition settle (schedule : Z * ScheduledMessage) (result : Result unit)
    : M W Event unit :=
  match result with
  | Throw error =>
      emit (LogFailed (schedule_id schedule) error);;
      exec (updateScheduleStatus (schedule_id schedule) SchFailed
                                 (Some (err_message error)));;
      sendScheduleNotification schedule Failed (Some (err_message error))
  | Ok _ =>
      emit (LogCompleted (schedule_id schedule));;
      exec (updateScheduleStatus (schedule_id schedule) SchCompleted None);;
      sendScheduleNotification schedule Completed None
  end.

(** One turn of the loop of [processSchedules], lines 45-122. *)
Definition process_schedule (schedule : Z * ScheduledMessage) : M W Event unit :=
  result ← execute schedule;
  settle schedule result.

(** [processSchedules], lines 41-124, when nothing else runs before it
    returns: one tick, at clock [now]. *)
Definition processSchedules (now : Z) : M W Event unit :=
  pendingSchedules ← query (getPendingSchedules now);
  for_of pendingSchedules process_schedule.

(** The state a tick leaves and the events it emitted. *)
Definition tick (now : Z) (s : St W) : St W := (processSchedules now s).1.2.
Definition tick_events (now : Z) (s : St W) : list Event := (processSchedules now s).2.

Definition schedule_row (id : Z) (s : St W) : option ScheduledMessage :=
  scheduled_messages (database s) !! id.

(** *** Calls in flight

    [processSchedules] is an [async] function: at an [await] it gives
    the control back, and the timer of [startScheduler] (lines 26-28)
    calls it again every 10 seconds, whether or not an earlier call has
    returned.  A call is in flight at the [await] of line 47, with the
    rows of its [SELECT] that are still to come and what the execution
    it awaits will give; or at the [await] of line 117 or 121; or it
    has returned.  The calls of one execution, and those of one
    notification, are taken together: they write nothing to the store,
    and the status is written between the two. *)
Inductive Flight :=
  | Executing (schedule : Z * ScheduledMessage) (result : Result unit)
      (rest : list (Z * ScheduledMessage))
  | Notifying (rest : list (Z * ScheduledMessage))
  | Finished.

(** The head of the [for] loop: the next row is executed, up to the
    [await]. *)
Definition loop_head (rest : list (Z * ScheduledMessage)) (s : St W)
    : Flight * St W * list Event :=
  match rest with
  | [] => (Finished, s, [])
  | schedule :: rest =>
      match execute schedule s with
      | (Ok result, s1, t1) => (Executing schedule result rest, s1, t1)
      | (Throw _, s1, t1) => (Finished, s1, t1)
      end
  end.

(** The timer calls [processSchedules] at clock [now]: the [SELECT] of
    line 42, and the loop up to its first [await]. *)
Definition start (now : Z) (s : St W) : Flight * St W * list Event :=
  loop_head (getPendingSchedules now (database s)) s.

(** A call in flight goes on, up to its next [await]. *)
Definition resume (flight : Flight) (s : St W) : Flight * St W * list Event :=
  match flight with
  | Executing schedule result rest =>
      match settle schedule result s with
      | (Ok _, s1, t1) => (Notifying rest, s1, t1)
      | (Throw _, s1, t1) => (Finished, s1, t1)
      end
  | Notifying rest => loop_head rest s
  | Finished => (Finished, s, [])
  end.

(** The process: the state, the calls of [processSchedules] made so
    far, and the events so far. *)
Record Loop := mkLoop {
  loop_state : St W;
  flights : list Flight;
  loop_events : list Event;
}.

(** What happens next: the timer fires, or the call of some number goes
    on. *)
Inductive Turn :=
  | TimerFires (now : Z)
  | Resumes (i : nat).

Definition turn (l : Loop) (t : Turn) : Loop :=
  match t with
  | TimerFires now =>
      let '(flight, s, events) := start now (loop_state l) in
      mkLoop s (flights l ++ [flight])%list (loop_events l ++ events)%list
  | Resumes i =>
      match flights l !! i with
      | Some flight =>
          let '(flight, s, events) := resume flight (loop_state l) in
          mkLoop s (<[i := flight]> (flights l)) (loop_events l ++ events)%list
      | None => l
      end
  end.

Definition run_loop (turns : list Turn) (l : Loop) : Loop := foldl turn l turns.

(** The turns of a tick that nothing interrupts: the timer fires and
    the call, the [i]-th of the process, goes on until it has returned,
    two awaits for each row of [pending]. *)
Definition alone (now : Z) (pending : list (Z * ScheduledMessage)) (i : nat)
    : list Turn :=
  TimerFires now :: replicate (2 * length pending) (Resumes i).

(** The row of an id is still to be processed by a call in flight: it
    is the row whose execution the call awaits, or one of the rows to
    come. *)
Definition in_flight (id : Z) (flight : Flight) : Prop :=
  match flight with
  | Executing schedule _ rest => id = schedule_id schedule ∨ id ∈ rest.*1
  | Notifying rest => id ∈ rest.*1
  | Finished => False
  end.

(** No call is in flight. *)
Definition idle (l : Loop) : Prop := Forall (λ flight, flight = Finished) (flights l).

(** The prompts given to the session handler, in order. *)
Definition session_prompt (e : Event) : option string :=
  match e with
  | HandleOpencodeSession prompt _ _ _ => Some prompt
  | _ => None
  end.

End Tick.
End Scheduler.

(** ** The schedule command (commands/schedule.ts) *)

Module ScheduleCommand.
Import Store Eff Discord.

(** [command.reply({ content, ephemeral })]; a reply that is not
    ephemeral is sent with [SILENT_MESSAGE_FLAGS]. *)
Inductive Event :=
  | Reply (content : string) (ephemeral : bool)
  | LogCancelled (id : Z).

(** [`${schedule.status}`] *)
Definition status_text (s : ScheduleStatus) : string :=
  match s with
  | SchPending => "pending"
  | SchCompleted => "completed"
  | SchFailed => "failed"
  | SchCancelled => "cancelled"
  end.

Section Cancel.
Context {W : Type}.

(** [cancelSchedule(id, userId)] is imported from database.ts and not
    part of the sources at hand; it is a parameter: a statement on the
    store that reports whether it cancelled. *)
Variable cancelSchedule : Z → string → Database → bool * Database.

(** [command.reply], which may reject. *)
Variable command_reply : string → bool → W → Result unit * W.

Definition reply (content : string) (ephemeral : bool) : M W Event unit :=
  emit (Reply content ephemeral);; call (command_reply content ephemeral).

(** The [cancel] case of [handleScheduleCommand], lines 178-212; [id]
    is [command.options.getInteger('id', true)], [userId] is
    [command.user.id]. *)
Definition handleScheduleCommand_cancel (id : Z) (userId : string) : M W Event unit :=
  schedule ← query (getScheduleById id);
  match schedule with
  | None =>
      reply ("❌ Schedule #" +:+ pretty id +:+ " not found") true
  | Some schedule =>
      if negb (bool_decide (sm_status schedule = SchPending)) then
        reply ("❌ Schedule #" +:+ pretty id +:+ " is already "
               +:+ status_text (sm_status schedule)) true
      else
        cancelled ← (λ s, let '(b, db) := cancelSchedule id userId (database s) in
                          (Ok b, mkSt (world s) db, []));
        if cancelled : bool then
          emit (LogCancelled id);;
          reply ("✅ Cancelled schedule **#" +:+ pretty id +:+ "**") false
        else
          reply ("❌ Failed to cancel schedule #" +:+ pretty id) true
  end.

End Cancel.
End ScheduleCommand.

(** ** The fork context menu *)

Module Fork.
Import Store Eff Discord.

(** [forkResult.data] *)
Record Session := mkSession {
  session_id : string;
  session_title : option string;
}.

(** What the handler does that can be seen from outside; a fork call is
    recorded with what it returned. *)
Inductive Event :=
  | Reply (content : string) (ephemeral : bool)
  | DeferReply (ephemeral : bool)
  | EditReply (content : string)
  | SessionFork (sessionId messageID directory : string)
      (result : Result (option Session))
  | ThreadsCreate (parent : Channel) (name : string)
  | LogForked (sessionId forkedId threadId : string).

(** [interaction.channel] and [interaction.targetMessage.id]. *)
Record Interaction := mkInteraction {
  channel : option Channel;
  targetMessage_id : string;
}.

Definition is_threads_create (e : Event) : bool :=
  match e with ThreadsCreate _ _ => true | _ => false end.

Definition is_fork_success (e : Event) : bool :=
  match e with SessionFork _ _ _ (Ok (Some _)) => true | _ => false end.

(** Every [threads.create] of the list comes after a fork call that
    returned a session; [forked] tells whether one was seen before the
    list. *)
Fixpoint created_after_fork (forked : bool) (events : list Event) : bool :=
  match events with
  | [] => true
  | ThreadsCreate _ _ :: rest => forked && created_after_fork forked rest
  | e :: rest => created_after_fork (forked || is_fork_success e) rest
  end.

Section Handler.
Context {W : Type}.

(** What the handler calls outside the store.
    [initializeOpencodeForDirectory] returns an [Error] or a client;
    [session_fork] is [getClient().session.fork(...)], whose [data] may
    be missing. *)
Record Services := mkServices {
  interaction_reply : string → bool → W → Result unit * W;
  interaction_deferReply : bool → W → Result unit * W;
  interaction_editReply : string → W → Result unit * W;
  resolveTextChannel : Channel → W → Result (option Channel) * W;
  getKimakiMetadata : option Channel → W → Result (option string) * W;
  initializeOpencodeForDirectory : string → W → Result (option JsError) * W;
  session_fork : string → string → string → W → Result (option Session) * W;
  threads_create : Channel → string → W → Result Channel * W;
}.

Variable services : Services.

Definition reply (content : string) (ephemeral : bool) : M W Event unit :=
  emit (Reply content ephemeral);; call (interaction_reply services content ephemeral).

Definition editReply (content : string) : M W Event unit :=
  emit (EditReply content);; call (interaction_editReply services content).

Definition not_linked_message : string :=
  "❌ This message is not linked to a session part. Select a message from the AI response.".

(** [SELECT part_id FROM part_messages WHERE message_id = ?] followed by
    [!partRow?.part_id]. *)
Definition lookup_part (messageId : string) (db : Database) : option string :=
  truthy (resolveFragment messageId db).

(** [handleForkContextMenu], lines 96-226. *)
Definition handleForkContextMenu (interaction : Interaction) : M W Event unit :=
  match channel interaction with
  | None => reply "❌ Could not access channel" true
  | Some channel =>
      if negb (isThread channel) then
        reply "❌ This command only works in session threads" true
      else
        let thread := channel in
        textChannel ← call (resolveTextChannel services thread);
        projectDirectory ← call (getKimakiMetadata services textChannel);
        match truthy projectDirectory with
        | None => reply "❌ Could not find project directory for this channel" true
        | Some projectDirectory =>
            row ← query (resolveSession (ch_id thread));
            match truthy row with
            | None => reply "❌ No session found for this thread" true
            | Some sessionId =>
                partRow ← query (lookup_part (targetMessage_id interaction));
                match partRow with
                | None => reply not_linked_message true
                | Some partId =>
                    emit (DeferReply true);;
                    call (interaction_deferReply services true);;
                    getClient ← call (initializeOpencodeForDirectory services
                                                               projectDirectory);
                    match getClient with
                    | Some error => editReply ("❌ " +:+ err_message error)
                    | None =>
                        forkResult ← tryAsync
                          (call (session_fork services sessionId partId
                                              projectDirectory));
                        emit (SessionFork sessionId partId projectDirectory
                                          forkResult);;
                        match forkResult with
                        | Throw error =>
                            editReply ("❌ Fork failed: " +:+ err_message error)
                        | Ok None => editReply "❌ Fork returned no session data"
                        | Ok (Some forkedSession) =>
                            parentTextChannel ← call (resolveTextChannel services thread);
                            match parentTextChannel with
                            | None => editReply "❌ Could not find parent channel"
                            | Some parentTextChannel =>
                                let name :=
                                  utf16_slice 100
                                    ("Fork: " +:+ default "Untitled"
                                       (truthy (session_title forkedSession))) in
                                emit (ThreadsCreate parentTextChannel name);;
                                newThread ← call (threads_create services
                                                                 parentTextChannel name);
                                exec (bindSession (ch_id newThread)
                                                  (session_id forkedSession));;
                                editReply ("✅ Forked session to <#"
                                           +:+ ch_id newThread +:+ ">");;
                                emit (LogForked sessionId (session_id forkedSession)
                                                (ch_id newThread))
                            end
                        end
                    end
                end
            end
        end
  end.

(** No [threads.create] among the events. *)
Definition no_thread_created (events : list Event) : Prop :=
  Forall (λ e, is_threads_create e = false) events.

(** A failure reported to the user: the handler's only message is an
    ephemeral reply with that text. *)
Definition fails_with (content : string) (events : list Event) : Prop :=
  events = [Reply content true].

End Handler.
End Fork.

(** ** Concrete values

    A store, a Discord client and services to run the handlers on. *)

Module Scenario.
Import Store Security Eff Discord.

Definition key0 : list ascii := list_ascii_of_string "0123456789abcdef0123456789abcdef".
Definition rnd0 : list ascii := list_ascii_of_string "f3a91c07be5d".
Definition rnd1 : list ascii := list_ascii_of_string "0b64e2d9a8c1".

(** Two keys of the instance whose tag names the key. *)
Definition key1 : ascii * ascii := ("k"%char, "1"%char).
Definition key2 : ascii * ascii := ("k"%char, "2"%char).

(** A store written before the vault existed: a token and an API key
    in plaintext. *)
Definition legacy_db : Database :=
  with_bot_api_keys (insert "app" (mkBotApiKeysRow (Some "AIzaSyLegacyKey") None))
    (with_bot_tokens (insert "app" "legacy.bot.token") empty_database).

(** A worktree that was requested and then created. *)
Definition ready_db : Database :=
  setWorktreeReady "thread-1" "/repo/.worktrees/fix"
    (createPendingWorktree "thread-1" "fix" "/repo" empty_database).

Definition thread_1 : Channel := mkChannel "thread-1" PublicThread (Some "chan-1") true true.
Definition thread_2 : Channel := mkChannel "thread-2" PublicThread (Some "chan-1") true true.
Definition chan_1 : Channel := mkChannel "chan-1" GuildText None true true.
Definition hub_1 : Channel := mkChannel "hub-1" GuildText None true true.

Definition demo_fetch (id : string) : option Channel :=
  if bool_decide (id = "thread-1") then Some thread_1
  else if bool_decide (id = "chan-1") then Some chan_1
  else if bool_decide (id = "hub-1") then Some hub_1
  else None.

(** A client over a world that counts the calls made to it; every call
    succeeds, and a channel that is not known is not found. *)
Definition demo_client : @Scheduler.Client nat :=
  Scheduler.mkClient (Some "app-1")
    (λ id w, (Ok (demo_fetch id), S w))
    (λ _ _ w, (Ok tt, S w))
    (λ _ _ _ _ w, (Ok tt, S w))
    (λ _ _ w, (Ok "message-1", S w))
    (λ _ _ w, (Ok thread_1, S w)).

Definition run_tests : ScheduledMessage :=
  mkScheduledMessage "chan-1" (Some "thread-1") "Run tests" 30 SchPending "user-1" None.
Definition deploy : ScheduledMessage :=
  mkScheduledMessage "chan-gone" None "Deploy" 20 SchPending "user-1" None.
Definition later : ScheduledMessage :=
  mkScheduledMessage "chan-1" None "Later" 100 SchPending "user-2" None.

Definition demo_db : Database :=
  mkDatabase ∅ ∅ ∅ ∅ ∅
    {[ "chan-1" := mkChannelDirectoryRow "/repo" None ]}
    (<[1%Z := run_tests]> (<[2%Z := deploy]> (<[3%Z := later]> ∅)))
    {[ "app-1" := mkBotSettings (Some "hub-1") ]}.

Definition demo_state : St nat := mkSt 0 demo_db.

(** The same store once schedule 1 is completed. *)
Definition completed_run_tests : ScheduledMessage := set_status SchCompleted None run_tests.

Definition done_db : Database :=
  with_scheduled_messages (insert 1%Z completed_run_tests) demo_db.

(** A [cancelSchedule] that would cancel whatever it is given. *)
Definition demo_cancel (id : Z) (userId : string) (db : Database) : bool * Database :=
  (true, with_scheduled_messages (alter (set_status SchCancelled None) id) db).

Definition demo_reply (content : string) (ephemeral : bool) (w : nat)
    : Result unit * nat :=
  (Ok tt, S w).

(** Services of the fork handler that all succeed. *)
Definition demo_services : @Fork.Services nat :=
  Fork.mkServices demo_reply
    (λ _ w, (Ok tt, S w))
    (λ _ w, (Ok tt, S w))
    (λ _ w, (Ok (Some chan_1), S w))
    (λ _ w, (Ok (Some "/repo"), S w))
    (λ _ w, (Ok None, S w))
    (λ _ _ _ w, (Ok (Some (Fork.mkSession "ses_fork" (Some "Refactor"))), S w))
    (λ _ _ w, (Ok thread_2, S w)).

(** Thread 1 is bound to a session, and message 7 shows part 1 of it. *)
Definition fork_db : Database :=
  recordFragment "prt_1" "message-7" "thread-1"
    (bindSession "thread-1" "ses_1" empty_database).

End Scenario.


(** * Properties *)

Local Open Scope list_scope.

(** ** The store *)

Module StoreFacts.
Import Store Scenario.

Lemma filter_key_lookup {A} (T : string) (m : gmap string A) :
  filter (λ kv : string * A, kv.1 = T) m
  = match m !! T with Some v => {[T := v]} | None => ∅ end.
Proof.
  apply map_eq. intros k.
  destruct (filter (λ kv : string * A, kv.1 = T) m !! k) as [v|] eqn:Hf.
  - apply map_lookup_filter_Some in Hf as [Hk Heq]. simpl in Heq. subst k.
    rewrite Hk. by rewrite lookup_singleton_eq.
  - apply map_lookup_filter_None in Hf.
    destruct (m !! T) as [v|] eqn:HT; [|by rewrite lookup_empty].
    destruct (decide (T = k)) as [->|Hne].
    + destruct Hf as [Hf|Hf]; [congruence|]. exfalso. by apply (Hf v).
    + by rewrite lookup_singleton_ne.
Qed.

Lemma session_rows_lookup T db :
  session_rows T db = match resolveSession T db with Some _ => 1 | None => 0 end.
Proof.
  unfold session_rows, resolveSession. rewrite filter_key_lookup.
  destruct (thread_sessions db !! T); [apply map_size_singleton | apply map_size_empty].
Qed.

Lemma resolveSession_bindSession T S db :
  resolveSession T (bindSession T S db) = Some S.
Proof. unfold resolveSession, bindSession. simpl. apply lookup_insert_eq. Qed.

Lemma resolveSession_bindSession_ne T T' S db :
  T ≠ T' → resolveSession T' (bindSession T S db) = resolveSession T' db.
Proof. intros. unfold resolveSession, bindSession. simpl. by apply lookup_insert_ne. Qed.

Lemma bindSession_twice T A B db :
  bindSession T B (bindSession T A db) = bindSession T B db.
Proof.
  unfold bindSession, with_thread_sessions. simpl. f_equal. apply insert_insert_eq.
Qed.

(** C8.  Binding a thread is a last-writer-wins upsert: after binding
    [T] to [A] and then to [B], resolving [T] gives [B], the table holds
    exactly one row for [T], the first binding has left nothing behind
    (the store is the one binding [T] to [B] alone gives), binding [B]
    once more changes nothing, and the rows of the other threads are the
    ones they were. *)
Theorem bindSession_last_writer_wins (T A B : string) (db : Database) :
  let db' := bindSession T B (bindSession T A db) in
  resolveSession T db' = Some B
  ∧ session_rows T db' = 1
  ∧ db' = bindSession T B db
  ∧ bindSession T B db' = db'
  ∧ ∀ T', T' ≠ T → resolveSession T' db' = resolveSession T' db.
Proof.
  simpl. rewrite bindSession_twice. split_and!.
  - apply resolveSession_bindSession.
  - by rewrite session_rows_lookup, resolveSession_bindSession.
  - done.
  - apply bindSession_twice.
  - intros T' Hne. by apply resolveSession_bindSession_ne.
Qed.

(** *** Fragments *)

Lemma foldl_earlier_elem row rows : foldl earlier row rows ∈ row :: rows.
Proof.
  revert row. induction rows as [|x rows IH]; intros row; simpl.
  - left.
  - specialize (IH (earlier row x)).
    apply elem_of_cons in IH as [->|IH]; [|by do 2 right].
    unfold earlier. destruct (_ <? _)%Z; [right; left | left].
Qed.

Lemma first_row_None rows : first_row rows = None ↔ rows = [].
Proof. by destruct rows. Qed.

Lemma first_row_Some rows x : first_row rows = Some x → x ∈ rows.
Proof.
  destruct rows as [|row rows]; [done|]. intros [= <-]. apply foldl_earlier_elem.
Qed.

Lemma resolveFragment_None m db :
  resolveFragment m db = None
  ↔ ∀ p row, part_messages db !! p = Some row → message_id row ≠ m.
Proof.
  unfold resolveFragment. rewrite fmap_None, first_row_None. split.
  - intros Hnil p row Hp Hm.
    apply (filter_nil_not_elem_of _ _ (p, row)) in Hnil; [|done].
    apply Hnil. by apply elem_of_map_to_list.
  - intros Hall.
    destruct (filter _ _) as [|[p row] l] eqn:Hf; [done|]. exfalso.
    assert (Hin : (p, row) ∈ filter (λ kv : string * PartMessage, message_id kv.2 = m)
                                    (map_to_list (part_messages db))).
    { rewrite Hf. left. }
    apply list_elem_of_filter in Hin as [Hm Hin]. apply elem_of_map_to_list in Hin.
    by apply (Hall p row).
Qed.

Lemma resolveFragment_Some m p db :
  resolveFragment m db = Some p
  → ∃ row, part_messages db !! p = Some row ∧ message_id row = m.
Proof.
  unfold resolveFragment. intros H. apply fmap_Some in H as ([q row] & Hh & ->).
  apply first_row_Some in Hh. apply list_elem_of_filter in Hh as [Hm Hin].
  apply elem_of_map_to_list in Hin. by exists row.
Qed.

(** A message that some part refers to resolves to a part. *)
Lemma resolveFragment_found m p row db :
  part_messages db !! p = Some row → message_id row = m →
  ∃ q, resolveFragment m db = Some q.
Proof.
  intros Hp Hm. destruct (resolveFragment m db) as [q|] eqn:Hr; [by exists q|].
  exfalso. by apply (proj1 (resolveFragment_None m db) Hr p row).
Qed.

Lemma recordFragments_lookup_ne ps m t db q :
  q ∉ ps → part_messages (recordFragments ps m t db) !! q = part_messages db !! q.
Proof.
  unfold recordFragments. simpl. generalize (part_messages db) as pm.
  induction ps as [|p ps IH]; intros pm Hq; cbn [foldl]; [done|].
  apply not_elem_of_cons in Hq as [Hne Hq]. rewrite (IH _ Hq).
  unfold insert_part_message. by apply lookup_insert_ne.
Qed.

Lemma recordFragments_lookup_in ps m t db q :
  q ∈ ps →
  ∃ rowid, part_messages (recordFragments ps m t db) !! q = Some (mkPartMessage m t rowid).
Proof.
  unfold recordFragments. simpl. generalize (part_messages db) as pm.
  induction ps as [|p ps IH]; intros pm Hq; cbn [foldl].
  - by apply elem_of_nil in Hq.
  - destruct (decide (q ∈ ps)) as [Hin|Hnin]; [by apply IH|].
    apply elem_of_cons in Hq as [->|?]; [|done].
    pose proof (recordFragments_lookup_ne ps m t
                  (with_part_messages (λ _, insert_part_message m t pm p) empty_database)
                  p Hnin) as Hne.
    unfold recordFragments in Hne. simpl in Hne. rewrite Hne.
    unfold insert_part_message. rewrite lookup_insert_eq. by eexists.
Qed.

(** Batches: when every part of the first batch is recorded again with
    another message, the first message resolves to nothing, provided no
    part outside the batch refers to it. *)
Lemma recordFragments_last_write_wins ps1 ps2 m1 m2 t1 t2 db :
  m1 ≠ m2 →
  ps1 ⊆ ps2 →
  (∀ q row, part_messages db !! q = Some row → q ∉ ps2 → message_id row ≠ m1) →
  let db' := recordFragments ps2 m2 t2 (recordFragments ps1 m1 t1 db) in
  (∀ p, p ∈ ps2 →
     ∃ rowid, part_messages db' !! p = Some (mkPartMessage m2 t2 rowid))
  ∧ resolveFragment m1 db' = None.
Proof.
  intros Hne Hsub Hfresh db'. split.
  - intros p Hp. by apply recordFragments_lookup_in.
  - apply resolveFragment_None. intros q row Hq. unfold db' in Hq.
    destruct (decide (q ∈ ps2)) as [H2|H2].
    + destruct (recordFragments_lookup_in ps2 m2 t2 (recordFragments ps1 m1 t1 db) q H2)
        as [rowid Hrow].
      rewrite Hrow in Hq. injection Hq as <-. simpl. congruence.
    + rewrite recordFragments_lookup_ne in Hq by done.
      rewrite recordFragments_lookup_ne in Hq by (intros H1; by apply H2, Hsub).
      by apply (Hfresh q row).
Qed.

(** C9, amended.  Two recordings of one part with two different
    messages leave one row for the part, pointing at the second message
    and thread, and leave the rows of the other parts as they were.
    The first message then never resolves to that part.  It resolves to
    no part exactly when no other part of the table refers to it: when
    one does, a part is found.  The second message resolves to the part
    when no other part refers to it. *)
Theorem recordFragment_last_write_wins (p m1 m2 t1 t2 : string) (db : Database) :
  m1 ≠ m2 →
  let db' := recordFragment p m2 t2 (recordFragment p m1 t1 db) in
  (∃ row, part_messages db' !! p = Some row
          ∧ message_id row = m2 ∧ pm_thread_id row = t2)
  ∧ (∀ q, q ≠ p → part_messages db' !! q = part_messages db !! q)
  ∧ resolveFragment m1 db' ≠ Some p
  ∧ ((∀ q row, part_messages db !! q = Some row → q ≠ p → message_id row ≠ m1) →
       resolveFragment m1 db' = None)
  ∧ (∀ q row, part_messages db !! q = Some row → q ≠ p → message_id row = m1 →
       ∃ q', q' ≠ p ∧ resolveFragment m1 db' = Some q')
  ∧ ((∀ q row, part_messages db !! q = Some row → q ≠ p → message_id row ≠ m2) →
       resolveFragment m2 db' = Some p).
Proof.
  intros Hne db'.
  assert (Hp : ∃ rowid, part_messages db' !! p = Some (mkPartMessage m2 t2 rowid)).
  { apply recordFragments_lookup_in. left. }
  assert (Hother : ∀ q, q ≠ p → part_messages db' !! q = part_messages db !! q).
  { intros q Hq. unfold db', recordFragment.
    rewrite !recordFragments_lookup_ne; [done|..];
      intros Hin; by apply list_elem_of_singleton in Hin. }
  assert (Hnot : resolveFragment m1 db' ≠ Some p).
  { intros Hr. apply resolveFragment_Some in Hr as (row & Hrow & Hm).
    destruct Hp as [rowid Hp]. rewrite Hp in Hrow. injection Hrow as <-.
    simpl in Hm. congruence. }
  split_and!.
  - destruct Hp as [rowid Hp]. by eexists.
  - exact Hother.
  - exact Hnot.
  - intros Hfresh. apply resolveFragment_None. intros q row Hq.
    destruct (decide (q = p)) as [->|Hqp].
    + destruct Hp as [rowid Hp]. rewrite Hp in Hq. injection Hq as <-.
      simpl. congruence.
    + rewrite (Hother q Hqp) in Hq. by apply (Hfresh q row).
  - intros q row Hq Hqp Hm. rewrite <- (Hother q Hqp) in Hq.
    destruct (resolveFragment_found m1 q row db' Hq Hm) as [q' Hq'].
    exists q'. split; [|done]. intros ->. by apply Hnot.
  - intros Hfresh. destruct Hp as [rowid Hp].
    destruct (resolveFragment_found m2 p _ db' Hp eq_refl) as [q' Hq'].
    rewrite Hq'. f_equal. destruct (decide (q' = p)) as [|Hqp]; [done|]. exfalso.
    apply resolveFragment_Some in Hq' as (row & Hrow & Hm).
    rewrite (Hother q' Hqp) in Hrow. by apply (Hfresh q' row).
Qed.

Lemma recordFragment_last_write_wins_witness :
  let db' := recordFragment "prt_1" "msg_2" "thread_1"
               (recordFragment "prt_1" "msg_1" "thread_1" empty_database) in
  "msg_1" ≠ "msg_2"
  ∧ (∃ row, part_messages db' !! "prt_1" = Some row
            ∧ message_id row = "msg_2" ∧ pm_thread_id row = "thread_1")
  ∧ resolveFragment "msg_1" db' = None
  ∧ resolveFragment "msg_2" db' = Some "prt_1".
Proof.
  intros db'. split; [done|].
  destruct (recordFragment_last_write_wins "prt_1" "msg_1" "msg_2" "thread_1" "thread_1"
              empty_database) as (Hrow & _ & _ & Hnone & _ & Hsome); [done|].
  split_and!.
  - exact Hrow.
  - apply Hnone. intros q row Hq. simpl in Hq. by rewrite lookup_empty in Hq.
  - apply Hsome. intros q row Hq. simpl in Hq. by rewrite lookup_empty in Hq.
Defined.

(** C9, as stated, does not hold.  The resume handler records the parts
    of a message as a batch under one message id.  When one part of the
    batch is recorded again under another message, the first message
    still resolves: to the other part of the batch.  The same holds when
    the two recordings of the part come after the recording of the other
    part. *)
Lemma sibling_part_still_resolves :
  (let db := recordFragments ["prt_1"; "prt_2"] "msg_1" "thread_1" empty_database in
   let db' := recordFragment "prt_1" "msg_2" "thread_1" db in
   message_id <$> part_messages db' !! "prt_1" = Some "msg_2"
   ∧ resolveFragment "msg_1" db' = Some "prt_2")
  ∧ (let db := recordFragment "prt_2" "msg_1" "thread_1" empty_database in
     let db' := recordFragment "prt_1" "msg_2" "thread_1"
                  (recordFragment "prt_1" "msg_1" "thread_1" db) in
     message_id <$> part_messages db' !! "prt_1" = Some "msg_2"
     ∧ resolveFragment "msg_1" db' = Some "prt_2").
Proof. by vm_compute. Qed.

(** The part a message resolves to is the one recorded first among
    those that refer to it, whatever the part ids. *)
Example first_recorded_part_is_read :
  resolveFragment "msg_1"
    (recordFragments ["prt_b"; "prt_a"; "prt_c"] "msg_1" "thread_1" empty_database)
  = Some "prt_b"
  ∧ resolveFragment "msg_1"
      (recordFragment "prt_b" "msg_1" "thread_1"
         (recordFragments ["prt_b"; "prt_a"; "prt_c"] "msg_1" "thread_1" empty_database))
    = Some "prt_a".
Proof. by vm_compute. Qed.

End StoreFacts.

(** ** Worktrees *)

Module WorktreeFacts.
Import Store Scenario.

Lemma getThreadWorktree_create t n p db :
  getThreadWorktree t (createPendingWorktree t n p db)
  = Some (mkThreadWorktree n None p WtPending None).
Proof. unfold getThreadWorktree, createPendingWorktree. simpl. apply lookup_insert_eq. Qed.

Lemma getThreadWorktree_ready t d db :
  getThreadWorktree t (setWorktreeReady t d db) = mark_ready d <$> getThreadWorktree t db.
Proof. unfold getThreadWorktree, setWorktreeReady. simpl. apply lookup_alter_eq. Qed.

Lemma getThreadWorktree_error t m db :
  getThreadWorktree t (setWorktreeError t m db) = mark_error m <$> getThreadWorktree t db.
Proof. unfold getThreadWorktree, setWorktreeError. simpl. apply lookup_alter_eq. Qed.

Lemma getThreadWorktree_delete t db :
  getThreadWorktree t (deleteThreadWorktree t db) = None.
Proof. unfold getThreadWorktree, deleteThreadWorktree. simpl. apply lookup_delete_eq. Qed.

Lemma getThreadWorktree_other op t db :
  op_thread op ≠ t → getThreadWorktree t (apply_op db op) = getThreadWorktree t db.
Proof.
  intros Hne. unfold getThreadWorktree.
  destruct op; simpl in *.
  - by apply lookup_insert_ne.
  - by apply lookup_alter_ne.
  - by apply lookup_alter_ne.
  - by apply lookup_delete_ne.
Qed.

Lemma pending_step op t db :
  worktree_status t (apply_op db op) = Some WtPending →
  is_create_for t op = true ∨ worktree_status t db = Some WtPending.
Proof.
  unfold worktree_status. intros H.
  destruct (decide (op_thread op = t)) as [Heq|Hne].
  - destruct op; simpl in Heq; subst; simpl in H.
    + left. simpl. by apply bool_decide_eq_true_2.
    + rewrite getThreadWorktree_ready in H.
      destruct (getThreadWorktree t db); discriminate.
    + rewrite getThreadWorktree_error in H.
      destruct (getThreadWorktree t db); discriminate.
    + rewrite getThreadWorktree_delete in H. discriminate.
  - right. by rewrite getThreadWorktree_other in H.
Qed.

Lemma pending_only_by_create ops t db :
  worktree_status t db ≠ Some WtPending →
  worktree_status t (run_ops ops db) = Some WtPending →
  Exists (λ op, is_create_for t op = true) ops.
Proof.
  revert db. induction ops as [|op ops IH]; intros db Hnot Hpend.
  - done.
  - unfold run_ops in Hpend. simpl in Hpend.
    destruct (decide (worktree_status t (apply_op db op) = Some WtPending)) as [Hp|Hp].
    + apply pending_step in Hp as [Hc|Hc]; [by left | done].
    + right. by apply (IH (apply_op db op)).
Qed.

(** C2, as stated, does not hold: without any delete, a ready row
    becomes an error row, that error row becomes ready again, and a
    ready row goes back to pending. *)
Lemma worktree_terminal_states_are_left :
  worktree_status "thread-1" ready_db = Some WtReady
  ∧ worktree_status "thread-1" (setWorktreeError "thread-1" "boom" ready_db)
    = Some WtError
  ∧ worktree_status "thread-1"
      (setWorktreeReady "thread-1" "/repo/.worktrees/fix"
         (setWorktreeError "thread-1" "boom" ready_db))
    = Some WtReady
  ∧ worktree_status "thread-1" (createPendingWorktree "thread-1" "fix" "/repo" ready_db)
    = Some WtPending.
Proof. by vm_compute. Qed.

(** C2, amended.  The writers of the store do not look at the status
    they replace: [createPendingWorktree] leaves a fresh pending row
    whatever was there, [setWorktreeReady] and [setWorktreeError] turn
    whatever row exists into a ready row, respectively an error row, and
    create none, [deleteThreadWorktree] removes the row, and a writer for
    another thread changes nothing.  Over any sequence of writers, a
    thread whose row was not pending gets a pending row only through a
    [createPendingWorktree] for that thread. *)
Theorem worktree_writers :
  (∀ t n p db, getThreadWorktree t (createPendingWorktree t n p db)
               = Some (mkThreadWorktree n None p WtPending None))
  ∧ (∀ t d db, getThreadWorktree t (setWorktreeReady t d db)
               = mark_ready d <$> getThreadWorktree t db)
  ∧ (∀ t m db, getThreadWorktree t (setWorktreeError t m db)
               = mark_error m <$> getThreadWorktree t db)
  ∧ (∀ t db, getThreadWorktree t (deleteThreadWorktree t db) = None)
  ∧ (∀ op t db, op_thread op ≠ t →
                getThreadWorktree t (apply_op db op) = getThreadWorktree t db)
  ∧ (∀ ops t db,
       worktree_status t db ≠ Some WtPending →
       worktree_status t (run_ops ops db) = Some WtPending →
       Exists (λ op, is_create_for t op = true) ops).
Proof.
  split_and!.
  - apply getThreadWorktree_create.
  - apply getThreadWorktree_ready.
  - apply getThreadWorktree_error.
  - apply getThreadWorktree_delete.
  - apply getThreadWorktree_other.
  - apply pending_only_by_create.
Qed.

End WorktreeFacts.

(** ** The credential vault *)

Module SecurityFacts.
Import Security.

(** *** Base64 *)

Lemma unbase64_base64_char s : unbase64 (base64_char s) = Some s.
Proof. destruct s as [[[[[[] []] []] []] []] []]; reflexivity. Qed.

Lemma base64_char_class s : base64_class (base64_char s) = true.
Proof. destruct s as [[[[[[] []] []] []] []] []]; reflexivity. Qed.

Lemma base64_char_not_padding s : Ascii.eqb (base64_char s) "=" = false.
Proof. destruct s as [[[[[[] []] []] []] []] []]; reflexivity. Qed.

Lemma base64_char_not_colon s : Ascii.eqb (base64_char s) ":" = false.
Proof. destruct s as [[[[[[] []] []] []] []] []]; reflexivity. Qed.

Lemma base64_char_one_byte s : (nat_of_ascii (base64_char s) <? 128)%nat = true.
Proof. destruct s as [[[[[[] []] []] []] []] []]; reflexivity. Qed.

(** A character of the alphabet, and the padding, are their own code
    unit. *)
Lemma unit_bytes_from_char p s r :
  unit_bytes_from p (String (base64_char s) r)
  = String (base64_char s) (unit_bytes_from NoPending r).
Proof. cbn [unit_bytes_from]. cbv zeta. by rewrite base64_char_one_byte. Qed.

Lemma unit_bytes_from_padding p r :
  unit_bytes_from p (String "=" r) = String "=" (unit_bytes_from NoPending r).
Proof. reflexivity. Qed.

Lemma base64_sextets_char s r :
  base64_sextets (String (base64_char s) r) = s :: base64_sextets r.
Proof. simpl. by rewrite base64_char_not_padding, unbase64_base64_char. Qed.

Lemma base64_sextets_padding r : base64_sextets (String "=" r) = [].
Proof. reflexivity. Qed.

Lemma list_ind3 {A} (P : list A → Prop) :
  P [] → (∀ x, P [x]) → (∀ x y, P [x; y]) →
  (∀ x y z r, P r → P (x :: y :: z :: r)) →
  ∀ l, P l.
Proof.
  intros H0 H1 H2 H3.
  assert (H : ∀ l, P l ∧ (∀ x, P (x :: l)) ∧ (∀ x y, P (x :: y :: l))).
  { induction l as [|z l (IH0 & IH1 & IH2)]; [by auto|].
    split_and!; auto. }
  intros l. apply H.
Qed.

Lemma base64_encode_triple x y z r :
  base64_encode (x :: y :: z :: r)
  = String (base64_char (encode3 x y z).1.1.1)
      (String (base64_char (encode3 x y z).1.1.2)
         (String (base64_char (encode3 x y z).1.2)
            (String (base64_char (encode3 x y z).2) (base64_encode r)))).
Proof. cbn [base64_encode]. by destruct (encode3 x y z) as [[[? ?] ?] ?]. Qed.

Lemma base64_encode_single x :
  base64_encode [x]
  = String (base64_char (encode3 x zero zero).1.1.1)
      (String (base64_char (encode3 x zero zero).1.1.2) "==").
Proof. cbn [base64_encode]. by destruct (encode3 x zero zero) as [[[? ?] ?] ?]. Qed.

Lemma base64_encode_pair x y :
  base64_encode [x; y]
  = String (base64_char (encode3 x y zero).1.1.1)
      (String (base64_char (encode3 x y zero).1.1.2)
         (String (base64_char (encode3 x y zero).1.2) "=")).
Proof. cbn [base64_encode]. by destruct (encode3 x y zero) as [[[? ?] ?] ?]. Qed.

Lemma decode_encode3 x y z :
  let q := encode3 x y z in
  decode_first q.1.1.1 q.1.1.2 = x
  ∧ decode_second q.1.1.2 q.1.2 = y
  ∧ decode_third q.1.2 q.2 = z.
Proof. by destruct x, y, z. Qed.

Lemma unit_bytes_encode bs : unit_bytes (base64_encode bs) = base64_encode bs.
Proof.
  unfold unit_bytes. induction bs as [|x|x y|x y z r IH] using list_ind3.
  - reflexivity.
  - by rewrite base64_encode_single, !unit_bytes_from_char, !unit_bytes_from_padding.
  - by rewrite base64_encode_pair, !unit_bytes_from_char, !unit_bytes_from_padding.
  - by rewrite base64_encode_triple, !unit_bytes_from_char, IH.
Qed.

(** What [toString('base64')] wrote, [Buffer.from(_, 'base64')] reads
    back. *)
Lemma base64_decode_encode bs : base64_decode (base64_encode bs) = bs.
Proof.
  unfold base64_decode. rewrite unit_bytes_encode.
  induction bs as [|x|x y|x y z r IH] using list_ind3.
  - reflexivity.
  - rewrite base64_encode_single, !base64_sextets_char, base64_sextets_padding.
    cbn [base64_bytes]. by destruct (decode_encode3 x zero zero) as (-> & _ & _).
  - rewrite base64_encode_pair, !base64_sextets_char, base64_sextets_padding.
    cbn [base64_bytes]. by destruct (decode_encode3 x y zero) as (-> & -> & _).
  - rewrite base64_encode_triple, !base64_sextets_char.
    cbn [base64_bytes]. rewrite IH.
    by destruct (decode_encode3 x y z) as (-> & -> & ->).
Qed.

Lemma class_then_padding_char s r :
  class_then_padding (String (base64_char s) r) = class_then_padding r.
Proof. simpl. by rewrite base64_char_class. Qed.

Lemma base64_encode_class_then_padding bs :
  class_then_padding (base64_encode bs) = true.
Proof.
  induction bs as [|x|x y|x y z r IH] using list_ind3.
  - reflexivity.
  - by rewrite base64_encode_single, !class_then_padding_char.
  - by rewrite base64_encode_pair, !class_then_padding_char.
  - by rewrite base64_encode_triple, !class_then_padding_char.
Qed.

Lemma base64_encode_cons x bs :
  ∃ s r, base64_encode (x :: bs) = String (base64_char s) r
         ∧ class_then_padding r = true.
Proof.
  pose proof (base64_encode_class_then_padding (x :: bs)) as H.
  destruct bs as [|y [|z r]].
  - rewrite base64_encode_single in *. rewrite class_then_padding_char in H. eauto.
  - rewrite base64_encode_pair in *. rewrite class_then_padding_char in H. eauto.
  - rewrite base64_encode_triple in *. rewrite class_then_padding_char in H. eauto.
Qed.

(** The encoding of at least one byte passes the regular expression. *)
Lemma base64Regex_test_encode bs :
  bs ≠ [] → base64Regex_test (base64_encode bs) = true.
Proof.
  destruct bs as [|x bs]; [done|]. intros _.
  destruct (base64_encode_cons x bs) as (s & r & -> & Hr).
  simpl. by rewrite base64_char_class, Hr.
Qed.

Lemma base64_encode_nonempty bs :
  bs ≠ [] → falsy (base64_encode bs) = false ∧ (0 <? String.length (base64_encode bs))%nat = true.
Proof.
  destruct bs as [|x bs]; [done|]. intros _.
  by destruct (base64_encode_cons x bs) as (s & r & -> & Hr).
Qed.

Lemma includes_char s r :
  includes ":" (String (base64_char s) r) = includes ":" r.
Proof. simpl. by rewrite base64_char_not_colon. Qed.

Lemma base64_encode_no_colon bs : includes ":" (base64_encode bs) = false.
Proof.
  induction bs as [|x|x y|x y z r IH] using list_ind3.
  - reflexivity.
  - by rewrite base64_encode_single, !includes_char.
  - by rewrite base64_encode_pair, !includes_char.
  - by rewrite base64_encode_triple, !includes_char.
Qed.

(** A space after the text is skipped by the decoder. *)
Lemma base64_sextets_trailing_space s :
  base64_sextets (s +:+ " ") = base64_sextets s.
Proof.
  induction s as [|c r IH]; [reflexivity|]. simpl.
  destruct (Ascii.eqb c "="); [done|]. by rewrite IH.
Qed.

Lemma unit_bytes_from_trailing_space p s :
  unit_bytes_from p (s +:+ " ") = unit_bytes_from p s +:+ " ".
Proof.
  revert p. induction s as [|c r IH]; intros p; [reflexivity|].
  change (String c r +:+ " ") with (String c (r +:+ " ")).
  cbn [unit_bytes_from]. cbv zeta.
  repeat case_match; rewrite ?IH; reflexivity.
Qed.

Lemma base64_decode_trailing_space s : base64_decode (s +:+ " ") = base64_decode s.
Proof.
  unfold base64_decode, unit_bytes.
  by rewrite unit_bytes_from_trailing_space, base64_sextets_trailing_space.
Qed.

(** *** [split] and [includes] *)

Lemma split_not_nil c s : split c s ≠ [].
Proof.
  induction s as [|x r IH]; simpl; [done|].
  destruct (Ascii.eqb x c); [done|]. by destruct (split c r).
Qed.

Lemma split_append c a b :
  includes c a = false → split c (a +:+ String c b) = a :: split c b.
Proof.
  induction a as [|x a IH]; simpl; intros H.
  - by rewrite Ascii.eqb_refl.
  - apply orb_false_iff in H as [Hx Ha]. rewrite Hx, (IH Ha). done.
Qed.

Lemma split_none c a : includes c a = false → split c a = [a].
Proof.
  induction a as [|x a IH]; simpl; intros H; [done|].
  apply orb_false_iff in H as [Hx Ha]. by rewrite Hx, (IH Ha).
Qed.

Lemma includes_append c a b :
  includes c (a +:+ b) = includes c a || includes c b.
Proof.
  induction a as [|x a IH]; simpl; [done|]. by rewrite IH, orb_assoc.
Qed.

Lemma falsy_append_cons a c b : falsy (a +:+ String c b) = false.
Proof. by destruct a. Qed.

Lemma split_serialized a b c :
  includes ":" a = false → includes ":" b = false → includes ":" c = false →
  split ":" (a +:+ String ":" (b +:+ String ":" c)) = [a; b; c].
Proof.
  intros Ha Hb Hc.
  by rewrite (split_append _ _ _ Ha), (split_append _ _ _ Hb), (split_none _ _ Hc).
Qed.

Lemma serializeEncrypted_eq d :
  serializeEncrypted d = iv d +:+ String ":" (authTag d +:+ String ":" (encrypted d)).
Proof. reflexivity. Qed.

(** *** Serialized data *)

Lemma isEncrypted_serialize d :
  well_encoded d → isEncrypted (serializeEncrypted d) = true.
Proof.
  intros (i & t & e & Hi & Ht & He & ->).
  unfold isEncrypted. rewrite serializeEncrypted_eq. cbn [iv authTag encrypted].
  rewrite falsy_append_cons. rewrite includes_append. cbn [includes].
  rewrite Ascii.eqb_refl. cbn [orb]. rewrite orb_true_r. cbn [negb].
  rewrite split_serialized by apply base64_encode_no_colon.
  cbn [length Nat.eqb negb forallb].
  destruct (base64_encode_nonempty i Hi) as [_ ->].
  destruct (base64_encode_nonempty t Ht) as [_ ->].
  destruct (base64_encode_nonempty e He) as [_ ->].
  by rewrite !base64Regex_test_encode.
Qed.

Lemma deserialize_serialize d :
  well_encoded d → deserializeEncrypted (serializeEncrypted d) = Some d.
Proof.
  intros (i & t & e & Hi & Ht & He & ->).
  unfold deserializeEncrypted. rewrite serializeEncrypted_eq. cbn [iv authTag encrypted].
  rewrite split_serialized by apply base64_encode_no_colon.
  destruct (base64_encode_nonempty i Hi) as [-> _].
  destruct (base64_encode_nonempty t Ht) as [-> _].
  by destruct (base64_encode_nonempty e He) as [-> _].
Qed.

(** A serialized value whose ciphertext is empty ends with a colon and
    is not recognised. *)
Lemma serialize_empty_ciphertext i t :
  isEncrypted (serializeEncrypted (mkEncryptedData (base64_encode i) (base64_encode t) "")) = false
  ∧ deserializeEncrypted
      (serializeEncrypted (mkEncryptedData (base64_encode i) (base64_encode t) "")) = None.
Proof.
  unfold isEncrypted, deserializeEncrypted. rewrite serializeEncrypted_eq.
  cbn [iv authTag encrypted].
  rewrite falsy_append_cons, includes_append. cbn [includes].
  rewrite Ascii.eqb_refl. cbn [orb]. rewrite orb_true_r. cbn [negb].
  rewrite split_serialized; [|apply base64_encode_no_colon..|done].
  cbn [length Nat.eqb negb forallb falsy String.length Nat.ltb Nat.leb].
  rewrite !andb_false_r, !orb_true_r. done.
Qed.

End SecurityFacts.

(** ** Encryption, decryption and the stored credentials *)

Module VaultFacts.
Import Store Security SecurityFacts Credentials Scenario.

(** *** The small instance satisfies the contract *)

Lemma xorb_cancel a k : xorb (xorb a k) k = a.
Proof. by destruct a, k. Qed.

Lemma xor_ascii_involutive a k : xor_ascii (xor_ascii a k) k = a.
Proof.
  destruct a as [a0 a1 a2 a3 a4 a5 a6 a7], k as [k0 k1 k2 k3 k4 k5 k6 k7].
  simpl. f_equal; apply xorb_cancel.
Qed.

Lemma xor_bytes_involutive l ks : xor_bytes (xor_bytes l ks) ks = l.
Proof.
  revert ks. induction l as [|x l IH]; intros [|k ks]; simpl; try done.
  by rewrite xor_ascii_involutive, IH.
Qed.

Lemma xor_bytes_length l ks : length (xor_bytes l ks) = length l.
Proof.
  revert ks. induction l as [|x l IH]; intros [|k ks]; simpl; try done.
  by rewrite IH.
Qed.

Lemma toy_crypto_spec : NodeCryptoSpec toy_crypto.
Proof.
  split; simpl.
  - intros n e. unfold toy_randomBytes.
    rewrite length_take, length_app, length_replicate. lia.
  - intros k iv pt. apply xor_bytes_length.
  - done.
  - intros k iv pt _. unfold toy_open.
    rewrite bool_decide_eq_true_2 by done.
    by rewrite xor_bytes_length, xor_bytes_involutive.
Qed.

Lemma tagged_tag_length k iv ct : length (tagged_tag k iv ct) = 16.
Proof.
  unfold tagged_tag. case_bool_decide as Hiv; [|done].
  cbn [length]. rewrite length_app, Hiv. reflexivity.
Qed.

Lemma tagged_crypto_spec : NodeCryptoSpec tagged_crypto.
Proof.
  split; simpl.
  - intros n e. unfold toy_randomBytes.
    rewrite length_take, length_app, length_replicate. lia.
  - intros k iv pt. apply xor_bytes_length.
  - intros k iv pt. apply tagged_tag_length.
  - intros k iv pt _. unfold tagged_open.
    rewrite bool_decide_eq_true_2 by done.
    by rewrite xor_bytes_length, xor_bytes_involutive.
Qed.

Lemma xor_bytes_injective l l' ks :
  length l = length l' → xor_bytes l ks = xor_bytes l' ks → l = l'.
Proof.
  intros _ H. by rewrite <- (xor_bytes_involutive l ks), H, xor_bytes_involutive.
Qed.

Lemma tagged_crypto_authentic : GcmAuthentic tagged_crypto.
Proof.
  split; simpl.
  - intros k iv tag ct pt _. unfold tagged_open, tagged_seal.
    case_bool_decide as Htag; [|discriminate]. intros [= <-]. subst tag.
    by rewrite xor_bytes_length, xor_bytes_involutive.
  - intros k iv pt pt'. unfold tagged_seal. cbn [fst]. intros H.
    assert (Hlen : length pt = length pt').
    { apply (f_equal length) in H. by rewrite !xor_bytes_length in H. }
    rewrite <- Hlen in H. by apply xor_bytes_injective in H.
  - intros [k1 k2] [k1' k2'] iv iv' pt pt' Hiv. unfold tagged_seal, tagged_tag.
    intros [= _ Htag]. cbn [fst snd] in Htag.
    rewrite (bool_decide_eq_true_2 _ Hiv) in Htag.
    case_bool_decide as Hiv'.
    + injection Htag as -> -> Htag.
      apply app_inj_1 in Htag as [-> _]; [done | congruence].
    + exfalso. clear Hiv'. injection Htag as _ _ Htag.
      do 13 (destruct iv as [|? iv]; [by simplify_eq/=|]). by simplify_eq/=.
Qed.

(** *** Round trips *)

Section Vault.
Context `{C : NodeCrypto} (spec : NodeCryptoSpec C) (auth : GcmAuthentic C).

Lemma list_ascii_of_string_nil s : list_ascii_of_string s = [] → s = "".
Proof. by destruct s. Qed.

Lemma nonempty_of_length {A} (l : list A) n : length l = S n → l ≠ [].
Proof. by destruct l. Qed.

Lemma encrypt_well_encoded rnd s k : s ≠ "" → well_encoded (encrypt rnd s k).
Proof using spec.
  intros Hs. unfold encrypt.
  eexists _, _, _. split_and!; [| | |reflexivity].
  - apply (nonempty_of_length _ 11). apply randomBytes_length.
  - apply (nonempty_of_length _ 15). apply gcm_tag_length.
  - intros Hnil. apply Hs, list_ascii_of_string_nil.
    apply (f_equal length) in Hnil. rewrite gcm_seal_length in Hnil.
    by destruct (list_ascii_of_string s).
Qed.

Lemma decrypt_encrypt rnd s k : decrypt (encrypt rnd s k) k = Ok s.
Proof using spec.
  unfold decrypt, encrypt. cbn [iv authTag encrypted].
  rewrite !base64_decode_encode.
  rewrite gcm_open_seal by apply randomBytes_length.
  by rewrite string_of_list_ascii_of_string.
Qed.

(** The ciphertext of the empty string is empty, and the serialized
    value is then not recognised. *)
Lemma encrypt_empty_not_recognised rnd k :
  isEncrypted (serializeEncrypted (encrypt rnd "" k)) = false
  ∧ deserializeEncrypted (serializeEncrypted (encrypt rnd "" k)) = None.
Proof using spec.
  unfold encrypt.
  assert (Hct : (gcm_seal k (randomBytes IV_LENGTH rnd) (list_ascii_of_string "")).1 = []).
  { apply length_zero_iff_nil. by rewrite gcm_seal_length. }
  rewrite Hct. apply serialize_empty_ciphertext.
Qed.

Lemma getBotToken_encrypted k rnd s rnd' appId db :
  s ≠ "" →
  bot_tokens db !! appId = Some (serializeEncrypted (encrypt rnd s k)) →
  getBotToken k rnd' appId db = (Some s, db).
Proof using spec.
  intros Hs Hrow. unfold getBotToken. rewrite Hrow.
  pose proof (encrypt_well_encoded rnd s k Hs) as Hwe.
  rewrite serializeEncrypted_eq at 1. rewrite falsy_append_cons.
  rewrite (isEncrypted_serialize _ Hwe). cbn [negb].
  rewrite (deserialize_serialize _ Hwe). by rewrite decrypt_encrypt.
Qed.

Lemma decryptValue_encrypted k rnd s :
  s ≠ "" → decryptValue k (Some (serializeEncrypted (encrypt rnd s k))) = Some s.
Proof using spec.
  intros Hs. unfold decryptValue.
  pose proof (encrypt_well_encoded rnd s k Hs) as Hwe.
  rewrite serializeEncrypted_eq at 1. rewrite falsy_append_cons.
  rewrite (isEncrypted_serialize _ Hwe). cbn [negb].
  rewrite (deserialize_serialize _ Hwe). by rewrite decrypt_encrypt.
Qed.

Lemma falsy_false s : s ≠ "" → falsy s = false.
Proof. by destruct s. Qed.

Lemma getBotToken_legacy k rnd appId token db :
  bot_tokens db !! appId = Some token → token ≠ "" → isEncrypted token = false →
  getBotToken k rnd appId db
  = (Some token,
     with_bot_tokens (alter (λ _, serializeEncrypted (encrypt rnd token k)) appId) db).
Proof.
  intros Hrow Hne Hlegacy. unfold getBotToken.
  by rewrite Hrow, (falsy_false _ Hne), Hlegacy.
Qed.

Lemma decryptValue_legacy k v :
  v ≠ "" → isEncrypted v = false → decryptValue k (Some v) = Some v.
Proof. intros Hne Hlegacy. unfold decryptValue. by rewrite (falsy_false _ Hne), Hlegacy. Qed.

(** C10, amended.  For every non-empty plaintext [s] (and every key and
    IV drawn), the serialized encryption of [s] passes [isEncrypted] and
    [deserializeEncrypted] gives back the very triple; a stored token or
    API key of that form is therefore decrypted on a read, the store is
    left as it was, and nothing is encrypted a second time. *)
Theorem encrypted_value_recognised (rnd : Entropy) (s : string) (k : Key) :
  s ≠ "" →
  let data := encrypt rnd s k in
  isEncrypted (serializeEncrypted data) = true
  ∧ deserializeEncrypted (serializeEncrypted data) = Some data
  ∧ (∀ rnd' appId db,
       bot_tokens db !! appId = Some (serializeEncrypted data) →
       getBotToken k rnd' appId db = (Some s, db))
  ∧ decryptValue k (Some (serializeEncrypted data)) = Some s.
Proof using spec.
  intros Hs data. pose proof (encrypt_well_encoded rnd s k Hs) as Hwe.
  split_and!.
  - by apply isEncrypted_serialize.
  - by apply deserialize_serialize.
  - intros rnd' appId db Hrow. by apply (getBotToken_encrypted k rnd).
  - by apply decryptValue_encrypted.
Qed.

(** What [decrypt] decodes from the fields of an encryption. *)
Lemma decode_encrypt rnd s k :
  let iv0 := randomBytes IV_LENGTH rnd in
  base64_decode (iv (encrypt rnd s k)) = iv0
  ∧ base64_decode (authTag (encrypt rnd s k)) = (gcm_seal k iv0 (list_ascii_of_string s)).2
  ∧ base64_decode (encrypted (encrypt rnd s k)) = (gcm_seal k iv0 (list_ascii_of_string s)).1.
Proof. unfold encrypt. cbn [iv authTag encrypted]. by rewrite !base64_decode_encode. Qed.

Lemma decrypt_throws data k :
  (∀ pt, gcm_open k (base64_decode (iv data)) (base64_decode (authTag data))
                  (base64_decode (encrypted data)) ≠ Ok pt) →
  ∃ reason, decrypt data k = Throw (DecryptionError reason).
Proof.
  intros Hno. unfold decrypt. destruct (gcm_open _ _ _ _) as [pt|error].
  - by destruct (Hno pt).
  - by eexists.
Qed.


(** C3, amended.  [getBotToken] on a stored token that is not empty and
    fails [isEncrypted] returns that token and replaces it in the store
    by a value that passes [isEncrypted]; the next [getBotToken] returns
    the same token and leaves the store alone.  [getBotApiKeys] returns a
    non-empty legacy API key as it is stored and writes nothing (the key
    is encrypted by the next [setBotApiKeys]).  A stored empty string is
    read as absent by both, and nothing is written. *)
Theorem legacy_credential_read (k : Key) :
  (∀ rnd appId token db,
     bot_tokens db !! appId = Some token → token ≠ "" → isEncrypted token = false →
     let read := getBotToken k rnd appId db in
     read.1 = Some token
     ∧ (∃ stored, bot_tokens read.2 !! appId = Some stored ∧ isEncrypted stored = true)
     ∧ ∀ rnd', getBotToken k rnd' appId read.2 = (Some token, read.2))
  ∧ (∀ appId db, (getBotApiKeys k appId db).2 = db)
  ∧ (∀ v, v ≠ "" → isEncrypted v = false → decryptValue k (Some v) = Some v)
  ∧ (∀ rnd appId db,
       bot_tokens db !! appId = Some "" → getBotToken k rnd appId db = (None, db))
  ∧ decryptValue k (Some "") = None.
Proof using spec.
  split_and!.
  - intros rnd appId token db Hrow Hne Hlegacy read. unfold read.
    rewrite (getBotToken_legacy k rnd appId token db Hrow Hne Hlegacy). cbn [fst snd].
    assert (Hstored :
      bot_tokens (with_bot_tokens
                    (alter (λ _, serializeEncrypted (encrypt rnd token k)) appId) db)
        !! appId = Some (serializeEncrypted (encrypt rnd token k))).
    { simpl. by rewrite lookup_alter_eq, Hrow. }
    split_and!.
    + done.
    + eexists. split; [exact Hstored|].
      apply isEncrypted_serialize. by apply encrypt_well_encoded.
    + intros rnd'. by apply (getBotToken_encrypted k rnd).
  - intros appId db. unfold getBotApiKeys. by destruct (bot_api_keys db !! appId).
  - apply decryptValue_legacy.
  - intros rnd appId db Hrow. unfold getBotToken. by rewrite Hrow.
  - done.
Qed.

End Vault.

(** *** Concrete runs *)

Lemma encrypted_value_recognised_witness :
  "discord-bot-token" ≠ ""
  ∧ let data := @encrypt toy_crypto rnd0 "discord-bot-token" key0 in
    isEncrypted (serializeEncrypted data) = true
    ∧ deserializeEncrypted (serializeEncrypted data) = Some data
    ∧ (∀ rnd' appId db,
         bot_tokens db !! appId = Some (serializeEncrypted data) →
         @getBotToken toy_crypto key0 rnd' appId db = (Some "discord-bot-token", db))
    ∧ @decryptValue toy_crypto key0 (Some (serializeEncrypted data))
      = Some "discord-bot-token".
Proof.
  split; [done|].
  apply (@encrypted_value_recognised toy_crypto toy_crypto_spec rnd0
           "discord-bot-token" key0).
  done.
Defined.

(** C10, as stated, does not hold for the empty string: its ciphertext
    is empty, the serialized value ends with a colon, [isEncrypted]
    rejects it and [deserializeEncrypted] returns nothing.  A token set
    to the empty string is then taken for plaintext by the next read,
    which returns the serialized value and encrypts it once more. *)
Lemma empty_plaintext_not_recognised :
  (let stored := serializeEncrypted (@encrypt toy_crypto rnd0 "" key0) in
   let db := @setBotToken toy_crypto key0 rnd0 "app" "" empty_database in
   isEncrypted stored = false
   ∧ deserializeEncrypted stored = None
   ∧ bot_tokens db !! "app" = Some stored
   ∧ (@getBotToken toy_crypto key0 rnd1 "app" db).1 = Some stored
   ∧ bot_tokens (@getBotToken toy_crypto key0 rnd1 "app" db).2 !! "app" ≠ Some stored)
  ∧ (∀ C : NodeCrypto, NodeCryptoSpec C →
       ∀ rnd k, isEncrypted (serializeEncrypted (encrypt rnd "" k)) = false
                ∧ deserializeEncrypted (serializeEncrypted (encrypt rnd "" k)) = None).
Proof.
  split.
  - by vm_compute.
  - intros C spec rnd k. by apply encrypt_empty_not_recognised.
Qed.



Lemma legacy_credential_read_witness :
  let read := @getBotToken toy_crypto key0 rnd0 "app" legacy_db in
  read.1 = Some "legacy.bot.token"
  ∧ (∃ stored, bot_tokens read.2 !! "app" = Some stored ∧ isEncrypted stored = true)
  ∧ ∀ rnd', @getBotToken toy_crypto key0 rnd' "app" read.2
            = (Some "legacy.bot.token", read.2).
Proof.
  destruct (@legacy_credential_read toy_crypto toy_crypto_spec key0)
    as (H1 & _ & _ & _ & _).
  by apply (H1 rnd0 "app" "legacy.bot.token" legacy_db).
Defined.

(** C3, as stated, does not hold.  For [getBotApiKeys]: a legacy API
    key is returned, and after the read the store still holds it in
    plaintext.  And for a token stored as the empty string, which fails
    [isEncrypted] too: [getBotToken] returns nothing and writes
    nothing. *)
Lemma legacy_api_key_not_migrated :
  (let read := @getBotApiKeys toy_crypto key0 "app" legacy_db in
   isEncrypted "AIzaSyLegacyKey" = false
   ∧ read.1 = Some (Some "AIzaSyLegacyKey", None)
   ∧ gemini_api_key <$> bot_api_keys read.2 !! "app" = Some (Some "AIzaSyLegacyKey"))
  ∧ (let db := with_bot_tokens (insert "app" "") empty_database in
     isEncrypted "" = false
     ∧ bot_tokens db !! "app" = Some ""
     ∧ @getBotToken toy_crypto key0 rnd0 "app" db = (None, db)).
Proof. by vm_compute. Qed.

End VaultFacts.

(** ** Computations *)

Module EffFacts.
Import Store Eff.

Section Frames.
Context {W E : Type}.
Implicit Types s : St W.

Lemma bind_run {A B} (m : M W E A) (k : A → M W E B) s :
  (m ≫= k) s
  = match m s with
    | (Ok a, s1, t1) => let '(r, s2, t2) := k a s1 in (r, s2, t1 ++ t2)
    | (Throw e, s1, t1) => (Throw e, s1, t1)
    end.
Proof. reflexivity. Qed.

Context {I : Type} (sel : E → option I).

Lemma quiet_ret {A} (a : A) : quiet sel (mret a : M W E A).
Proof. by intros s. Qed.

Lemma quiet_throw {A} e : quiet sel (throw e : M W E A).
Proof. by intros s. Qed.

Lemma quiet_call {A} (o : W → Result A * W) : quiet sel (call o : M W E A).
Proof. intros s. unfold call. by destruct (o (world s)). Qed.

Lemma quiet_query {A} (q : Database → A) : quiet sel (query q : M W E A).
Proof. by intros s. Qed.

Lemma quiet_emit e : sel e = None → quiet sel (emit e : M W E unit).
Proof. intros He s. split; [done|]. unfold events_of, emit. simpl. by rewrite He. Qed.

Lemma quiet_bind {A B} (m : M W E A) (k : A → M W E B) :
  quiet sel m → (∀ a, quiet sel (k a)) → quiet sel (m ≫= k).
Proof.
  intros Hm Hk s. rewrite bind_run. specialize (Hm s).
  destruct (m s) as [[[a|e] s1] t1]; [|done].
  specialize (Hk a s1). destruct (k a s1) as [[r s2] t2].
  unfold state_of, events_of in *. simpl in *.
  destruct Hm as [Hm1 Hm2], Hk as [Hk1 Hk2]. split; [congruence|].
  by rewrite omap_app, Hm2, Hk2.
Qed.

Lemma quiet_tryAsync {A} (m : M W E A) : quiet sel m → quiet sel (tryAsync m).
Proof.
  intros Hm s. specialize (Hm s). unfold tryAsync.
  by destruct (m s) as [[r s1] t1].
Qed.

Lemma quiet_try_catch {A} (m : M W E A) : quiet sel m → quiet sel (try_catch m).
Proof.
  intros Hm s. specialize (Hm s). unfold try_catch.
  by destruct (m s) as [[r s1] t1].
Qed.

Lemma safe_ret {A} (a : A) : safe (mret a : M W E A).
Proof. intros s. by exists a. Qed.

Lemma safe_emit e : safe (emit e : M W E unit).
Proof. intros s. by exists tt. Qed.

Lemma safe_query {A} (q : Database → A) : safe (query q : M W E A).
Proof. intros s. by eexists. Qed.

Lemma safe_exec f : safe (exec f : M W E unit).
Proof. intros s. by exists tt. Qed.

Lemma safe_tryAsync {A} (m : M W E A) : safe (tryAsync m).
Proof. intros s. unfold tryAsync. destruct (m s) as [[r s1] t1]. by eexists. Qed.

Lemma safe_try_catch {A} (m : M W E A) : safe (try_catch m).
Proof. intros s. unfold try_catch. destruct (m s) as [[r s1] t1]. by eexists. Qed.

Lemma safe_bind {A B} (m : M W E A) (k : A → M W E B) :
  safe m → (∀ a, safe (k a)) → safe (m ≫= k).
Proof.
  intros Hm Hk s. rewrite bind_run. destruct (Hm s) as [a Ha].
  destruct (m s) as [[r s1] t1]. unfold result_of in Ha. simpl in Ha. subst r.
  destruct (Hk a s1) as [b Hb]. destruct (k a s1) as [[r s2] t2].
  by exists b.
Qed.

Lemma for_of_app {A} (l1 l2 : list A) (body : A → M W E unit) s :
  result_of (for_of l1 body s) = Ok tt →
  for_of (l1 ++ l2) body s
  = let '(r, s2, t2) := for_of l2 body (state_of (for_of l1 body s)) in
    (r, s2, events_of (for_of l1 body s) ++ t2).
Proof.
  revert s. induction l1 as [|x l1 IH]; intros s Hok.
  - unfold state_of, events_of. simpl. by destruct (for_of l2 body s) as [[r s2] t2].
  - cbn [for_of app] in *. unfold bind in *.
    destruct (body x s) as [[[[]|e] s1] t1]; [|done].
    destruct (for_of l1 body s1) as [[r1 s1'] t1'] eqn:H1.
    unfold result_of, state_of, events_of in *. simpl in Hok. subst r1.
    rewrite IH by (by rewrite H1). rewrite H1. simpl.
    destruct (for_of l2 body s1') as [[r s2] t2]. by rewrite app_assoc.
Qed.

End Frames.
End EffFacts.

(** ** The scheduler *)

Module SchedulerFacts.
Import Store Eff Discord Scheduler EffFacts Scenario.

Section TickFacts.
Context {W : Type} (client : @Client W).
Implicit Types s : St W.

Ltac quiet_step :=
  first
    [ apply quiet_ret | apply quiet_throw | apply quiet_call | apply quiet_query
    | apply quiet_tryAsync | apply quiet_try_catch | apply quiet_emit; reflexivity
    | apply quiet_bind; [|intros ?] | case_match ].

Lemma quiet_perform {A} e (o : W → Result A * W) :
  processing_id e = None → quiet processing_id (perform e o).
Proof. intros He. unfold perform. apply quiet_bind; [by apply quiet_emit | intros; apply quiet_call]. Qed.

Lemma run_schedule_quiet schedule : quiet processing_id (run_schedule client schedule).
Proof.
  unfold run_schedule.
  repeat first [ apply quiet_perform; reflexivity | quiet_step ].
Qed.

Lemma sendScheduleNotification_quiet schedule status errorMessage :
  quiet processing_id (sendScheduleNotification client schedule status errorMessage).
Proof.
  unfold sendScheduleNotification.
  repeat first [ apply quiet_perform; reflexivity | quiet_step ].
Qed.

Lemma sendScheduleNotification_safe schedule status errorMessage :
  safe (sendScheduleNotification client schedule status errorMessage).
Proof.
  unfold sendScheduleNotification.
  repeat first
    [ apply safe_ret | apply safe_query | apply safe_tryAsync | apply safe_try_catch
    | apply safe_bind; [|intros ?] | case_match ].
Qed.

(** One turn of the loop: it does not throw, it announces its schedule
    and no other, and what it leaves in the store is the status and the
    message of what the execution gave. *)
Lemma process_schedule_run schedule s :
  let run := run_schedule client schedule s in
  let result := errore_result (result_of run) in
  let after := mkSt (world (state_of run))
                 (updateScheduleStatus (schedule_id schedule)
                    (recorded result).1 (recorded result).2 (database s)) in
  let note := sendScheduleNotification client schedule (notified result)
                (recorded result).2 after in
  ∃ s' events,
    process_schedule client schedule s
    = (Ok tt, s', LogProcessing (schedule_id schedule) :: events)
    ∧ database s' = database after
    ∧ processing_ids events = []
    ∧ ∀ e, e ∈ events_of note → e ∈ events.
Proof.
  cbv zeta.
  pose proof (run_schedule_quiet schedule s) as [Hdb Hev].
  unfold process_schedule, execute, settle, mbind, M_bind, bind, emit, tryAsync, exec.
  unfold result_of, state_of, events_of in *.
  destruct (run_schedule client schedule s) as [[r s1] t1]. cbn [fst snd] in *.
  destruct r as [[]|cause]; cbn [errore_result recorded notified fst snd]; rewrite Hdb;
    [|set (error := UnhandledError cause)].
  - pose proof (sendScheduleNotification_quiet schedule Completed None
        (mkSt (world s1)
           (updateScheduleStatus (schedule_id schedule) SchCompleted None (database s))))
      as [Hndb Hnev].
    destruct (sendScheduleNotification_safe schedule Completed None
        (mkSt (world s1)
           (updateScheduleStatus (schedule_id schedule) SchCompleted None (database s))))
      as [[] Hok].
    unfold result_of, state_of, events_of in *.
    destruct (sendScheduleNotification _ _ _ _ _) as [[r2 s2] t2].
    cbn [fst snd] in *. subst r2.
    exists s2, (t1 ++ [LogCompleted (schedule_id schedule)] ++ t2).
    split_and!; [reflexivity | done | |].
    + unfold processing_ids. by rewrite !omap_app, Hev, Hnev.
    + intros e He. apply elem_of_app. right. apply elem_of_app. by right.
  - pose proof (sendScheduleNotification_quiet schedule Failed (Some (err_message error))
        (mkSt (world s1)
           (updateScheduleStatus (schedule_id schedule) SchFailed
              (Some (err_message error)) (database s))))
      as [Hndb Hnev].
    destruct (sendScheduleNotification_safe schedule Failed (Some (err_message error))
        (mkSt (world s1)
           (updateScheduleStatus (schedule_id schedule) SchFailed
              (Some (err_message error)) (database s))))
      as [[] Hok].
    unfold result_of, state_of, events_of in *.
    destruct (sendScheduleNotification _ _ _ _ _) as [[r2 s2] t2].
    cbn [fst snd] in *. subst r2.
    exists s2, (t1 ++ [LogFailed (schedule_id schedule) error] ++ t2).
    split_and!; [reflexivity | done | |].
    + unfold processing_ids. by rewrite !omap_app, Hev, Hnev.
    + intros e He. apply elem_of_app. right. apply elem_of_app. by right.
Qed.

Lemma notification_sent schedule status errorMessage s appId hubId hub :
  truthy (application_id client) = Some appId →
  truthy (hub_channel_id (getBotSettings appId (database s))) = Some hubId →
  (channels_fetch client hubId (world s)).1 = Ok (Some hub) →
  ch_isTextBased hub = true →
  ch_hasSend hub = true →
  ChannelSend hub (notification_content schedule status errorMessage)
  ∈ events_of (sendScheduleNotification client schedule status errorMessage s).
Proof.
  intros Happ Hhub Hfetch Htext Hsend.
  unfold sendScheduleNotification. rewrite Happ.
  unfold mbind, M_bind, bind, query, tryAsync, try_catch, call, perform, emit, events_of.
  cbn [fst snd]. rewrite Hhub.
  destruct (channels_fetch client hubId (world s)) as [r w1]. simpl in Hfetch. subst r.
  cbn [errore_result]. rewrite Htext, Hsend. cbn [negb orb].
  unfold mbind, M_bind, bind, mret, M_ret, ret, call. cbn [world database].
  destruct (channel_send client hub (notification_content schedule status errorMessage) w1)
    as [r2 w2].
  simpl. set_solver.
Qed.

Lemma with_scheduled_messages_id db : db = with_scheduled_messages (λ m, m) db.
Proof. by destruct db. Qed.

Lemma set_status_twice st em st' em' (o : option ScheduledMessage) :
  set_status st' em' <$> (set_status st em <$> o) = set_status st' em' <$> o.
Proof. by destruct o. Qed.

Lemma resolved_recorded r : resolved (recorded r).1.
Proof. destruct r; [by left | by right]. Qed.

Lemma lookup_updateScheduleStatus id st em db j :
  scheduled_messages (updateScheduleStatus id st em db) !! j
  = if decide (id = j) then set_status st em <$> scheduled_messages db !! j
    else scheduled_messages db !! j.
Proof.
  unfold updateScheduleStatus. simpl. case_decide as Hj.
  - subst j. apply lookup_alter_eq.
  - by apply lookup_alter_ne.
Qed.

(** The loop over a list of schedules: it runs to its end, announces
    each schedule once and in order, touches no table but
    [scheduled_messages], leaves the rows of the other ids as they were
    and leaves each row of the list completed or failed. *)
Lemma loop_run (l : list (Z * ScheduledMessage)) s :
  ∃ s' events f,
    for_of l (process_schedule client) s = (Ok tt, s', events)
    ∧ database s' = with_scheduled_messages f (database s)
    ∧ processing_ids events = l.*1
    ∧ (∀ id, id ∉ l.*1 →
         scheduled_messages (database s') !! id = scheduled_messages (database s) !! id)
    ∧ (∀ id, id ∈ l.*1 →
         ∃ status errorMessage,
           resolved status
           ∧ scheduled_messages (database s') !! id
             = set_status status errorMessage <$> scheduled_messages (database s) !! id).
Proof.
  revert s. induction l as [|x l IH]; intros s.
  - exists s, [], (λ m, m). split_and!; try done.
    + apply with_scheduled_messages_id.
    + intros id Hin. by apply elem_of_nil in Hin.
  - destruct (process_schedule_run x s) as (s1 & ev1 & Hrun & Hdb1 & Hids1 & _).
    destruct (IH s1) as (s' & ev & f & Hloop & Hdb & Hids & Hout & Hin).
    cbn [database] in Hdb1.
    exists s', (LogProcessing (schedule_id x) :: ev1 ++ ev),
      (λ m, f (alter (set_status (recorded (errore_result (result_of (run_schedule client x s)))).1
                                 (recorded (errore_result (result_of (run_schedule client x s)))).2)
                     (schedule_id x) m)).
    split_and!.
    + cbn [for_of]. unfold bind. by rewrite Hrun, Hloop.
    + rewrite Hdb, Hdb1. unfold updateScheduleStatus. reflexivity.
    + unfold processing_ids in *. simpl. by rewrite omap_app, Hids1, Hids.
    + intros id Hnot. rewrite fmap_cons in Hnot.
      apply not_elem_of_cons in Hnot as [Hne Hnot].
      rewrite (Hout id Hnot), Hdb1, lookup_updateScheduleStatus.
      by rewrite decide_False.
    + intros id Hid. rewrite fmap_cons in Hid.
      destruct (decide (id ∈ l.*1)) as [Hl|Hl].
      * destruct (Hin id Hl) as (st & em & Hres & Hlook).
        exists st, em. split; [done|].
        rewrite Hlook, Hdb1, lookup_updateScheduleStatus.
        case_decide; [apply set_status_twice | done].
      * apply elem_of_cons in Hid as [->|?]; [|done].
        eexists _, _. split; [apply resolved_recorded|].
        rewrite (Hout _ Hl), Hdb1, lookup_updateScheduleStatus.
        by rewrite decide_True.
Qed.

Lemma pending_ids_NoDup now db : NoDup (getPendingSchedules now db).*1.
Proof.
  unfold getPendingSchedules.
  eapply sublist_NoDup; [apply (NoDup_fst_map_to_list (scheduled_messages db))|].
  apply fmap_sublist, sublist_filter.
Qed.

Lemma elem_of_getPendingSchedules now db id row :
  (id, row) ∈ getPendingSchedules now db
  ↔ scheduled_messages db !! id = Some row
    ∧ sm_status row = SchPending ∧ (sm_scheduled_at row ≤ now)%Z.
Proof.
  unfold getPendingSchedules. rewrite list_elem_of_filter, elem_of_map_to_list.
  unfold is_due. simpl. tauto.
Qed.

Lemma tick_run now s :
  ∃ f,
    result_of (processSchedules client now s) = Ok tt
    ∧ database (tick client now s) = with_scheduled_messages f (database s)
    ∧ processing_ids (tick_events client now s) = (getPendingSchedules now (database s)).*1
    ∧ (∀ id, id ∉ (getPendingSchedules now (database s)).*1 →
         schedule_row id (tick client now s) = schedule_row id s)
    ∧ (∀ id, id ∈ (getPendingSchedules now (database s)).*1 →
         ∃ status errorMessage,
           resolved status
           ∧ schedule_row id (tick client now s)
             = set_status status errorMessage <$> schedule_row id s).
Proof.
  destruct (loop_run (getPendingSchedules now (database s)) s)
    as (s' & ev & f & Hloop & Hdb & Hids & Hout & Hin).
  unfold tick, tick_events, schedule_row, result_of, processSchedules,
    mbind, M_bind, bind, query.
  rewrite Hloop. cbn [fst snd]. by exists f.
Qed.

(** A row that is not pending is not processed. *)
Lemma resolved_row_not_processed now s id row :
  schedule_row id s = Some row →
  sm_status row ≠ SchPending →
  (id ∉ processing_ids (tick_events client now s))
  ∧ schedule_row id (tick client now s) = Some row.
Proof.
  intros Hrow Hst. destruct (tick_run now s) as (f & _ & _ & Hids & Hout & _).
  assert (Hnot : id ∉ (getPendingSchedules now (database s)).*1).
  { intros Hin. apply list_elem_of_fmap in Hin as ([i r] & -> & Hin).
    apply elem_of_getPendingSchedules in Hin as (Hr & Hp & _).
    unfold schedule_row in Hrow. simpl in Hrow. congruence. }
  split; [by rewrite Hids | by rewrite (Hout id Hnot)].
Qed.

(** The turn of one schedule inside a tick: [s1] is the state the
    schedules before it have left. *)
Lemma tick_turn now s pre schedule post :
  getPendingSchedules now (database s) = pre ++ schedule :: post →
  let s1 := state_of (for_of pre (process_schedule client) s) in
  let run := run_schedule client schedule s1 in
  let result := errore_result (result_of run) in
  let after := mkSt (world (state_of run))
                 (updateScheduleStatus (schedule_id schedule)
                    (recorded result).1 (recorded result).2 (database s1)) in
  let note := sendScheduleNotification client schedule (notified result)
                (recorded result).2 after in
  schedule_row (schedule_id schedule) (tick client now s)
  = Some (set_status (recorded result).1 (recorded result).2 schedule.2)
  ∧ bot_settings (database after) = bot_settings (database s)
  ∧ ∀ e, e ∈ events_of note → e ∈ tick_events client now s.
Proof.
  intros Hl s1 run result after note.
  pose proof (pending_ids_NoDup now (database s)) as Hnd.
  rewrite Hl, fmap_app, fmap_cons in Hnd.
  apply NoDup_app in Hnd as (_ & Hpre & Hnd). apply NoDup_cons in Hnd as [Hpost _].
  assert (Hrow : scheduled_messages (database s) !! schedule_id schedule = Some schedule.2).
  { assert (Hin : schedule ∈ getPendingSchedules now (database s)) by (rewrite Hl; set_solver).
    destruct schedule as [i r]. by apply elem_of_getPendingSchedules in Hin as (? & _). }
  destruct (loop_run pre s) as (s1' & ev1 & f1 & Hloop1 & Hdb1 & _ & Hout1 & _).
  assert (Hs1 : s1 = s1') by (unfold s1, state_of; by rewrite Hloop1). 
  destruct (process_schedule_run schedule s1) as (s2 & ev2 & Hrun & Hdb2 & _ & Hnote).
  fold run in Hdb2, Hnote. fold result in Hdb2, Hnote.
  fold after in Hdb2, Hnote. fold note in Hnote.
  destruct (loop_run post s2) as (s3 & ev3 & f3 & Hloop3 & Hdb3 & _ & Hout3 & _).
  assert (Htick : processSchedules client now s
                  = (Ok tt, s3, ev1 ++ (LogProcessing (schedule_id schedule) :: ev2 ++ ev3))).
  { unfold processSchedules, mbind, M_bind, bind, query. cbn [fst snd]. rewrite Hl.
    rewrite for_of_app by (unfold result_of; by rewrite Hloop1).
    fold s1. unfold events_of. rewrite Hloop1. cbn [for_of snd]. unfold bind.
    rewrite Hrun, Hloop3. by rewrite app_nil_l. }
  unfold tick, tick_events, schedule_row. rewrite Htick. cbn [fst snd].
  unfold schedule_id in *.
  split_and!.
  - rewrite (Hout3 _ Hpost), Hdb2. unfold after. cbn [database].
    rewrite lookup_updateScheduleStatus, decide_True by done.
    rewrite Hs1, (Hout1 _ (λ Hin, Hpre _ Hin (list_elem_of_here _ _))).
    by rewrite Hrow.
  - unfold after. cbn [database]. rewrite Hs1, Hdb1. reflexivity.
  - intros e He. apply Hnote in He. set_solver.
Qed.

(** *** Calls in flight *)

Lemma execute_run schedule s :
  let run := run_schedule client schedule s in
  execute client schedule s
  = (Ok (errore_result (result_of run)), state_of run,
     LogProcessing (schedule_id schedule) :: events_of run).
Proof.
  unfold execute, mbind, M_bind, bind, emit, tryAsync, result_of, state_of, events_of.
  by destruct (run_schedule client schedule s) as [[r s1] t1].
Qed.

Lemma settle_run schedule result s :
  ∃ s' events,
    settle client schedule result s = (Ok tt, s', events)
    ∧ database s'
      = updateScheduleStatus (schedule_id schedule) (recorded result).1
          (recorded result).2 (database s)
    ∧ processing_ids events = [].
Proof.
  unfold settle, mbind, M_bind, bind, emit, exec.
  destruct result as [[]|error]; cbn [recorded fst snd world database].
  - pose proof (sendScheduleNotification_quiet schedule Completed None
        (mkSt (world s)
           (updateScheduleStatus (schedule_id schedule) SchCompleted None (database s))))
      as [Hndb Hnev].
    destruct (sendScheduleNotification_safe schedule Completed None
        (mkSt (world s)
           (updateScheduleStatus (schedule_id schedule) SchCompleted None (database s))))
      as [[] Hok].
    unfold result_of, state_of, events_of in *.
    destruct (sendScheduleNotification _ _ _ _ _) as [[r2 s2] t2].
    cbn [fst snd] in *. subst r2.
    exists s2, ([LogCompleted (schedule_id schedule)] ++ t2).
    split_and!; [reflexivity | done |].
    unfold processing_ids. by rewrite omap_app, Hnev.
  - pose proof (sendScheduleNotification_quiet schedule Failed (Some (err_message error))
        (mkSt (world s)
           (updateScheduleStatus (schedule_id schedule) SchFailed
              (Some (err_message error)) (database s))))
      as [Hndb Hnev].
    destruct (sendScheduleNotification_safe schedule Failed (Some (err_message error))
        (mkSt (world s)
           (updateScheduleStatus (schedule_id schedule) SchFailed
              (Some (err_message error)) (database s))))
      as [[] Hok].
    unfold result_of, state_of, events_of in *.
    destruct (sendScheduleNotification _ _ _ _ _) as [[r2 s2] t2].
    cbn [fst snd] in *. subst r2.
    exists s2, ([LogFailed (schedule_id schedule) error] ++ t2).
    split_and!; [reflexivity | done |].
    unfold processing_ids. by rewrite omap_app, Hnev.
Qed.

Lemma lookup_last_flight (fs : list Flight) flight :
  (fs ++ [flight]) !! length fs = Some flight.
Proof. by apply list_lookup_middle. Qed.

Lemma insert_last_flight (fs : list Flight) flight flight' :
  <[length fs := flight']> (fs ++ [flight]) = fs ++ [flight'].
Proof.
  rewrite insert_app_r_alt by done. by rewrite Nat.sub_diag.
Qed.

(** A call that nothing interrupts does what the loop of
    [processSchedules] does. *)
Lemma resumes_alone rest s fs ev :
  run_loop client (replicate (2 * length rest) (Resumes (length fs)))
    (mkLoop (loop_head client rest s).1.2 (fs ++ [(loop_head client rest s).1.1])
            (ev ++ (loop_head client rest s).2))
  = mkLoop (state_of (for_of rest (process_schedule client) s)) (fs ++ [Finished])
           (ev ++ events_of (for_of rest (process_schedule client) s)).
Proof.
  revert s ev. induction rest as [|x rest IH]; intros s ev.
  - reflexivity.
  - replace (2 * length (x :: rest)) with (S (S (2 * length rest))) by (simpl; lia).
    cbn [replicate loop_head]. rewrite execute_run. cbn [fst snd].
    unfold run_loop. cbn [foldl turn flights loop_state loop_events].
    rewrite lookup_last_flight. cbn [resume].
    destruct (settle_run x (errore_result (result_of (run_schedule client x s)))
                (state_of (run_schedule client x s))) as (s2 & t2 & Hsettle & _ & _).
    rewrite Hsettle. cbn [flights loop_state loop_events].
    rewrite insert_last_flight, lookup_last_flight. cbn [resume].
    destruct (loop_head client rest s2) as [[flight s3] t3] eqn:Hhead.
    rewrite insert_last_flight.
    specialize (IH s2 ((ev ++ LogProcessing (schedule_id x)
                              :: events_of (run_schedule client x s)) ++ t2)).
    rewrite Hhead in IH. cbn [fst snd] in IH. unfold run_loop in IH. rewrite IH.
    assert (Hturn : process_schedule client x s
                    = (Ok tt, s2, (LogProcessing (schedule_id x)
                                     :: events_of (run_schedule client x s)) ++ t2)).
    { unfold process_schedule, mbind, M_bind, bind. by rewrite execute_run, Hsettle. }
    cbn [for_of]. unfold bind at 1 2. rewrite Hturn.
    unfold state_of, events_of.
    destruct (for_of rest (process_schedule client) s2) as [[r4 s4] t4].
    cbn [fst snd]. f_equal. by rewrite <- !app_assoc.
Qed.

Lemma tick_alone now s fs ev :
  run_loop client (alone now (getPendingSchedules now (database s)) (length fs))
    (mkLoop s fs ev)
  = mkLoop (tick client now s) (fs ++ [Finished]) (ev ++ tick_events client now s).
Proof.
  unfold alone, run_loop. cbn [foldl turn loop_state flights loop_events]. unfold start.
  pose proof (resumes_alone (getPendingSchedules now (database s)) s fs ev) as H.
  destruct (loop_head client (getPendingSchedules now (database s)) s)
    as [[flight s1] t1].
  cbn [fst snd] in H. unfold run_loop in H. rewrite H.
  unfold tick, tick_events, processSchedules, mbind, M_bind, bind, query,
    state_of, events_of.
  by destruct (for_of _ _ s) as [[r s'] t].
Qed.

(** Once the row of [id] is not pending and no call in flight has it
    among its rows, nothing the process does processes it or changes
    it. *)
Lemma loop_head_settled id rest s :
  id ∉ rest.*1 →
  ¬ in_flight id (loop_head client rest s).1.1
  ∧ database (loop_head client rest s).1.2 = database s
  ∧ id ∉ processing_ids (loop_head client rest s).2.
Proof.
  destruct rest as [|x rest]; intros Hid.
  - cbn. split_and!; [tauto | done | apply not_elem_of_nil].
  - cbn [loop_head]. rewrite execute_run. cbn [fst snd in_flight].
    rewrite fmap_cons in Hid. apply not_elem_of_cons in Hid as [Hx Hrest].
    pose proof (run_schedule_quiet x s) as [Hdb Hev].
    split_and!.
    + intros [?|?]; done.
    + done.
    + unfold processing_ids. cbn [omap list_omap processing_id]. rewrite Hev.
      apply not_elem_of_cons. split; [done | apply not_elem_of_nil].
Qed.

Lemma resume_settled id flight s :
  ¬ in_flight id flight →
  ¬ in_flight id (resume client flight s).1.1
  ∧ schedule_row id (resume client flight s).1.2 = schedule_row id s
  ∧ id ∉ processing_ids (resume client flight s).2.
Proof.
  destruct flight as [x result rest|rest|]; cbn [in_flight resume]; intros Hid.
  - destruct (settle_run x result s) as (s' & t & -> & Hdb & Hev).
    cbn [fst snd in_flight]. split_and!.
    + tauto.
    + unfold schedule_row. rewrite Hdb, lookup_updateScheduleStatus.
      rewrite decide_False; [done|]. intros Heq. apply Hid. by left.
    + rewrite Hev. apply not_elem_of_nil.
  - destruct (loop_head_settled id rest s Hid) as (Hf & Hdb & Hev).
    split_and!; [done | | done]. unfold schedule_row. by rewrite Hdb.
  - cbn. split_and!; [tauto | done | apply not_elem_of_nil].
Qed.

Lemma turn_settled id row l t :
  schedule_row id (loop_state l) = Some row →
  sm_status row ≠ SchPending →
  Forall (λ flight, ¬ in_flight id flight) (flights l) →
  schedule_row id (loop_state (turn client l t)) = Some row
  ∧ Forall (λ flight, ¬ in_flight id flight) (flights (turn client l t))
  ∧ ∃ events, loop_events (turn client l t) = loop_events l ++ events
              ∧ id ∉ processing_ids events.
Proof.
  intros Hrow Hst Hfl. destruct t as [now|i]; cbn [turn].
  - unfold start.
    assert (Hnot : id ∉ (getPendingSchedules now (database (loop_state l))).*1).
    { intros Hin. apply list_elem_of_fmap in Hin as ([j r] & -> & Hin).
      apply elem_of_getPendingSchedules in Hin as (Hr & Hp & _).
      unfold schedule_row in Hrow. simpl in Hrow. congruence. }
    destruct (loop_head_settled id _ (loop_state l) Hnot) as (Hf & Hdb & Hev).
    destruct (loop_head client _ (loop_state l)) as [[flight s1] t1].
    cbn [fst snd loop_state flights loop_events] in *. split_and!.
    + unfold schedule_row in *. by rewrite Hdb.
    + apply Forall_app. split; [done|]. by apply Forall_singleton.
    + by exists t1.
  - destruct (flights l !! i) as [flight|] eqn:Hi.
    + assert (Hflight : ¬ in_flight id flight).
      { by apply (proj1 (Forall_lookup _ _) Hfl i). }
      destruct (resume_settled id flight (loop_state l) Hflight) as (Hf & Hr & Hev).
      destruct (resume client flight (loop_state l)) as [[flight' s1] t1].
      cbn [fst snd loop_state flights loop_events] in *. split_and!.
      * by rewrite Hr.
      * by apply Forall_insert.
      * by exists t1.
    + split_and!; [done | done |]. exists []. split; [by rewrite app_nil_r|].
      apply not_elem_of_nil.
Qed.

Lemma run_loop_settled id row turns l :
  schedule_row id (loop_state l) = Some row →
  sm_status row ≠ SchPending →
  Forall (λ flight, ¬ in_flight id flight) (flights l) →
  schedule_row id (loop_state (run_loop client turns l)) = Some row
  ∧ ∃ events, loop_events (run_loop client turns l) = loop_events l ++ events
              ∧ id ∉ processing_ids events.
Proof.
  revert l. induction turns as [|t turns IH]; intros l Hrow Hst Hfl.
  - split; [done|]. exists []. split; [by rewrite app_nil_r | apply not_elem_of_nil].
  - destruct (turn_settled id row l t Hrow Hst Hfl) as (Hrow1 & Hfl1 & ev1 & Hev1 & Hid1).
    destruct (IH (turn client l t) Hrow1 Hst Hfl1) as (Hrow2 & ev2 & Hev2 & Hid2).
    unfold run_loop in *. cbn [foldl]. split; [done|].
    exists (ev1 ++ ev2). split.
    + by rewrite Hev2, Hev1, app_assoc.
    + unfold processing_ids in *. rewrite omap_app. intros Hin.
      apply elem_of_app in Hin as [?|?]; done.
Qed.

End TickFacts.

(** C1, amended.  Let no call of [processSchedules] be in flight when
    the timer fires, and let the call it starts run to its end before
    anything else does.  The call is then one run of the loop of
    [processSchedules].  A row that is pending and due when it starts
    is processed by it exactly once; when it returns no call is in
    flight and the row is completed or failed (one of the two, and not
    pending), its other columns but the error message being the ones it
    had.  From then on, whatever the timer and the calls it starts do,
    in any order and overlapping or not, the row is never processed
    again and stays as it is. *)
Theorem due_schedule_resolved_once {W} (client : @Client W) (now : Z) (l : @Loop W)
    (id : Z) (row : ScheduledMessage) :
  idle l →
  schedule_row id (loop_state l) = Some row →
  sm_status row = SchPending →
  (sm_scheduled_at row ≤ now)%Z →
  let s := loop_state l in
  let l' := run_loop client
              (alone now (getPendingSchedules now (database s)) (length (flights l))) l in
  (loop_state l' = tick client now s
   ∧ loop_events l' = loop_events l ++ tick_events client now s
   ∧ idle l')
  ∧ (∃ status errorMessage,
       resolved status ∧ status ≠ SchPending
       ∧ schedule_row id (loop_state l') = Some (set_status status errorMessage row))
  ∧ id ∈ processing_ids (tick_events client now s)
  ∧ NoDup (processing_ids (tick_events client now s))
  ∧ ∀ turns : list Turn,
      schedule_row id (loop_state (run_loop client turns l'))
      = schedule_row id (loop_state l')
      ∧ ∃ events,
          loop_events (run_loop client turns l') = loop_events l' ++ events
          ∧ id ∉ processing_ids events.
Proof.
  intros Hidle Hrow Hpending Hdue s l'.
  assert (Hl' : l' = mkLoop (tick client now s) (flights l ++ [Finished])
                       (loop_events l ++ tick_events client now s)).
  { unfold l', s. destruct l as [s0 fs ev]. apply tick_alone. }
  assert (Hidle' : idle l').
  { rewrite Hl'. unfold idle. cbn [flights]. apply Forall_app. split; [done|].
    by apply Forall_singleton. }
  destruct (tick_run client now s) as (f & _ & _ & Hids & _ & Hin).
  assert (Hmem : id ∈ (getPendingSchedules now (database s)).*1).
  { apply list_elem_of_fmap. exists (id, row). split; [done|].
    by apply elem_of_getPendingSchedules. }
  destruct (Hin id Hmem) as (st & em & Hres & Hlook).
  unfold s in Hlook at 2. rewrite Hrow in Hlook. simpl in Hlook.
  assert (Hst : st ≠ SchPending) by (destruct Hres; congruence).
  assert (Hrow' : schedule_row id (loop_state l') = Some (set_status st em row)).
  { by rewrite Hl'. }
  split_and!.
  - by rewrite Hl'.
  - by rewrite Hl'.
  - done.
  - by exists st, em.
  - by rewrite Hids.
  - rewrite Hids. apply pending_ids_NoDup.
  - intros turns. rewrite Hrow'.
    apply (run_loop_settled client id (set_status st em row) turns l' Hrow');
      [done|].
    unfold idle in Hidle'. eapply Forall_impl; [exact Hidle'|].
    cbn beta. by intros flight -> [].
Qed.


Lemma due_schedule_resolved_once_witness :
  let l := mkLoop demo_state [] [] in
  let l' := run_loop demo_client (alone 30 (getPendingSchedules 30 demo_db) 0) l in
  idle l
  ∧ (∃ status errorMessage,
       resolved status ∧ status ≠ SchPending
       ∧ schedule_row 1 (loop_state l') = Some (set_status status errorMessage run_tests))
  ∧ 1%Z ∈ processing_ids (tick_events demo_client 30 demo_state)
  ∧ NoDup (processing_ids (tick_events demo_client 30 demo_state))
  ∧ ∀ turns : list Turn,
      schedule_row 1 (loop_state (run_loop demo_client turns l'))
      = schedule_row 1 (loop_state l').
Proof.
  intros l l'.
  assert (Hidle : idle l) by apply Forall_nil_2.
  destruct (due_schedule_resolved_once demo_client 30 l 1 run_tests)
    as (_ & Hrow & Hin & Hnd & Hlater); [done | by vm_compute | done | by compute |].
  split_and!; [done | exact Hrow | exact Hin | exact Hnd |].
  intros turns. apply Hlater.
Defined.

(** C1, as stated, does not hold: the timer starts a call every 10
    seconds whether or not the one before has returned.  Schedule 1 is
    pending and due at 30.  The timer fires at 30 and the call executes
    the schedule; while it awaits the session, the timer fires at 40:
    the status is not written yet, the second call finds the row pending
    and executes it too.  The schedule is processed twice and the
    session handler is given its prompt twice; both calls then write
    the status. *)
Lemma overlapping_ticks_process_twice :
  let s20 := tick demo_client 20 demo_state in
  let l := run_loop demo_client
             [TimerFires 30; TimerFires 40; Resumes 0; Resumes 1; Resumes 0; Resumes 1]
             (mkLoop s20 [] []) in
  schedule_row 1 s20 = Some run_tests
  ∧ getPendingSchedules 30 (database s20) = [(1%Z, run_tests)]
  ∧ processing_ids (loop_events l) = [1%Z; 1%Z]
  ∧ omap session_prompt (loop_events l) = ["Run tests"; "Run tests"]
  ∧ flights l = [Finished; Finished]
  ∧ schedule_row 1 (loop_state l) = Some completed_run_tests.
Proof. by vm_compute. Qed.


(** The scenario of the specification: a schedule for time 30 is left
    pending by the ticks at 10 and 20 and is executed by the tick at 30,
    once, with one notice to the hub for it. *)
Example run_tests_scenario :
  let s10 := tick demo_client 10 demo_state in
  let s20 := tick demo_client 20 s10 in
  let s30 := tick demo_client 30 s20 in
  schedule_row 1 s10 = Some run_tests
  ∧ schedule_row 1 s20 = Some run_tests
  ∧ schedule_row 1 s30 = Some completed_run_tests
  ∧ processing_ids (tick_events demo_client 30 s20) = [1%Z]
  ∧ omap (sent_to "hub-1") (tick_events demo_client 30 s20)
    = [notification_content (1%Z, run_tests) Completed None]
  ∧ processing_ids (tick_events demo_client 40 s30) = [].
Proof. by vm_compute. Qed.

End SchedulerFacts.


(** ** The schedule command *)

Module ScheduleCommandFacts.
Import Store Eff Discord ScheduleCommand EffFacts Scenario.

(** C7.  Cancelling a schedule whose status is not pending is refused:
    the only thing the handler does is to reply, to the requester alone,
    that the schedule is already in that status; [cancelSchedule] is not
    run, the store is the one it was, and so is the row, status, prompt
    and time included. *)
Theorem cancel_resolved_schedule_refused {W}
    (cancelSchedule : Z → string → Database → bool * Database)
    (command_reply : string → bool → W → Result unit * W)
    (id : Z) (userId : string) (s : St W) (schedule : ScheduledMessage) :
  getScheduleById id (database s) = Some schedule →
  sm_status schedule ≠ SchPending →
  let r := handleScheduleCommand_cancel cancelSchedule command_reply id userId s in
  events_of r
  = [Reply ("❌ Schedule #" +:+ pretty id +:+ " is already "
            +:+ status_text (sm_status schedule)) true]
  ∧ database (state_of r) = database s
  ∧ getScheduleById id (database (state_of r)) = Some schedule.
Proof.
  intros Hrow Hst r. subst r.
  unfold handleScheduleCommand_cancel, reply, mbind, M_bind, bind, query, emit, call,
    events_of, state_of.
  cbn [fst snd]. rewrite Hrow. rewrite bool_decide_eq_false_2 by done. cbn [negb].
  destruct (command_reply _ true (world s)) as [[[]|e] w]; simpl; by rewrite ?Hrow.
Qed.

Lemma cancel_resolved_schedule_refused_witness :
  let r := handleScheduleCommand_cancel demo_cancel demo_reply 1 "user-1"
             (mkSt 0 done_db) in
  events_of r = [Reply "❌ Schedule #1 is already completed" true]
  ∧ database (state_of r) = done_db
  ∧ getScheduleById 1 (database (state_of r)) = Some completed_run_tests.
Proof.
  apply (cancel_resolved_schedule_refused demo_cancel demo_reply 1 "user-1"
           (mkSt 0 done_db) completed_run_tests); [by vm_compute | done].
Defined.

End ScheduleCommandFacts.

(** ** The fork context menu *)

Module ForkFacts.
Import Store Eff Discord Fork EffFacts StoreFacts Scenario.

Lemma created_after_fork_split forked events before parent name after :
  created_after_fork forked events = true →
  events = before ++ ThreadsCreate parent name :: after →
  forked = true ∨ Exists (λ e, is_fork_success e = true) before.
Proof.
  revert forked events. induction before as [|e before IH]; intros forked events Hok ->.
  - simpl in Hok. apply andb_true_iff in Hok as [-> _]. by left.
  - assert (Hrest : ∃ forked', created_after_fork forked' (before ++ ThreadsCreate parent name :: after) = true
                      ∧ (forked' = true → forked = true ∨ is_fork_success e = true)).
    { destruct e; simpl in Hok;
        try (eexists; split; [exact Hok|]; rewrite ?orb_false_r; by auto).
      - eexists; split; [exact Hok|]. intros H. apply orb_true_iff in H. tauto.
      - apply andb_true_iff in Hok as [-> Hok]. exists true. by auto. }
    destruct Hrest as (forked' & Hok' & Hf).
    destruct (IH forked' _ Hok' eq_refl) as [Hforked|Hex].
    + destruct (Hf Hforked) as [?|?]; [by left | right; by left].
    + right. by right.
Qed.

Section HandlerFacts.
Context {W : Type} (services : @Services W).
Implicit Types s : St W.

Ltac run_handler :=
  unfold handleForkContextMenu, reply, editReply, events_of, state_of,
    mbind, M_bind, bind, emit, call, query, exec, tryAsync.

Lemma fork_events_ordered interaction s :
  created_after_fork false (events_of (handleForkContextMenu services interaction s)) = true.
Proof.
  run_handler.
  repeat (case_match; simplify_eq/=; try done).
Qed.

Lemma lookup_part_None messageId db :
  resolveFragment messageId db = None → lookup_part messageId db = None.
Proof. unfold lookup_part. by intros ->. Qed.

(** Without a fragment the handler stops at the lookup of the part, or
    before it: the store is left as it was, no fork is asked for, no
    thread is created, and nothing is sent but ephemeral replies. *)
Lemma fork_without_fragment_stops interaction s :
  resolveFragment (targetMessage_id interaction) (database s) = None →
  database (state_of (handleForkContextMenu services interaction s)) = database s
  ∧ Forall (λ e, ∃ content, e = Reply content true)
           (events_of (handleForkContextMenu services interaction s)).
Proof.
  intros Hnone%lookup_part_None. run_handler.
  repeat (case_match; simplify_eq/=; try done);
    (split; [done | repeat constructor; by eexists]).
Qed.

(** With a thread, a project directory and a bound session, what the
    user gets is the message that the fragment was not found. *)
Lemma fork_without_fragment_message interaction s thread textChannel w1
    projectDirectory w2 :
  resolveFragment (targetMessage_id interaction) (database s) = None →
  channel interaction = Some thread →
  isThread thread = true →
  resolveTextChannel services thread (world s) = (Ok textChannel, w1) →
  getKimakiMetadata services textChannel w1 = (Ok projectDirectory, w2) →
  is_Some (truthy projectDirectory) →
  is_Some (truthy (resolveSession (ch_id thread) (database s))) →
  fails_with not_linked_message
    (events_of (handleForkContextMenu services interaction s)).
Proof.
  intros Hnone%lookup_part_None Hch Hthread Htext Hmeta [dir Hdir] [sid Hsid].
  unfold fails_with. run_handler.
  rewrite Hch, Hthread. cbn [negb world database]. rewrite Htext. cbn [world database].
  rewrite Hmeta, Hdir. cbn [fst snd database]. rewrite Hsid. cbn [fst snd database].
  rewrite Hnone. cbn [world].
  by destruct (interaction_reply services not_linked_message true w2).
Qed.

End HandlerFacts.

(** C5.  Forking from a message that has no recorded fragment creates
    no thread and no binding: the store is left as it was, and the
    handler asks for no fork and sends nothing but ephemeral replies;
    when the command is used in a thread that has a project directory
    and a bound session, the reply is the message that the message is
    not linked to a session part.  And in every run of the handler, a
    thread is created only after a fork call that returned a session. *)
Theorem fork_needs_fragment {W} (services : @Services W) :
  (∀ interaction s,
     resolveFragment (targetMessage_id interaction) (database s) = None →
     let r := handleForkContextMenu services interaction s in
     database (state_of r) = database s
     ∧ thread_sessions (database (state_of r)) = thread_sessions (database s)
     ∧ no_thread_created (events_of r)
     ∧ Forall (λ e, ∃ content, e = Reply content true) (events_of r)
     ∧ ∀ thread textChannel w1 projectDirectory w2,
         channel interaction = Some thread →
         isThread thread = true →
         resolveTextChannel services thread (world s) = (Ok textChannel, w1) →
         getKimakiMetadata services textChannel w1 = (Ok projectDirectory, w2) →
         is_Some (truthy projectDirectory) →
         is_Some (truthy (resolveSession (ch_id thread) (database s))) →
         fails_with not_linked_message (events_of r))
  ∧ (∀ interaction s before parent name after,
       events_of (handleForkContextMenu services interaction s)
       = before ++ ThreadsCreate parent name :: after →
       Exists (λ e, is_fork_success e = true) before).
Proof.
  split.
  - intros interaction s Hnone r.
    destruct (fork_without_fragment_stops services interaction s Hnone) as [Hdb Hev].
    split_and!.
    + done.
    + unfold r. by rewrite Hdb.
    + unfold no_thread_created. eapply Forall_impl; [exact Hev|].
      by intros e [content ->].
    + done.
    + intros. by eapply fork_without_fragment_message.
  - intros interaction s before parent name after Hev.
    destruct (created_after_fork_split false _ before parent name after
                (fork_events_ordered services interaction s) Hev); done.
Qed.

(** A fork from a message that shows a part: the fork is asked for,
    then the thread is created and bound to the forked session. *)
Example fork_from_linked_message :
  let r := handleForkContextMenu demo_services (mkInteraction (Some thread_1) "message-7")
             (mkSt 0 fork_db) in
  events_of r
  = [DeferReply true;
     SessionFork "ses_1" "prt_1" "/repo" (Ok (Some (mkSession "ses_fork" (Some "Refactor"))));
     ThreadsCreate chan_1 "Fork: Refactor";
     EditReply "✅ Forked session to <#thread-2>";
     LogForked "ses_1" "ses_fork" "thread-2"]
  ∧ resolveSession "thread-2" (database (state_of r)) = Some "ses_fork".
Proof. by vm_compute. Qed.

(** A fork from a message that shows no part. *)
Example fork_from_unlinked_message :
  let r := handleForkContextMenu demo_services (mkInteraction (Some thread_1) "message-8")
             (mkSt 0 fork_db) in
  events_of r = [Reply not_linked_message true]
  ∧ database (state_of r) = fork_db
  ∧ resolveSession "thread-2" (database (state_of r)) = None.
Proof. by vm_compute. Qed.

End ForkFacts.
